(** * MetaStamp: the stamping pipeline

    A shallow embedding of the date-format engine ([formatDate],
    utils/formatPresets.ts), the metadata resolver
    ([extractImageMetadata], App.tsx), the overlay compositor (the
    [img.onload] body of [processImage], App.tsx), the batch
    orchestrator ([handleFiles], [handleClearAll], App.tsx), the
    downloads and the viewer (App.tsx, Lightbox.tsx), the settings
    panel (SettingsPanel.tsx), the overlay preview (OverlayPreview.tsx)
    and the preference store (utils/configStorage.ts), together with
    the properties the specification states about them and further
    properties read off the code. *)

From Stdlib Require Import String Ascii List ZArith QArith Qminmax Lia Lra.
From Stdlib Require Import DecimalString DecimalNat DecimalFacts.
From stdpp Require Import gmap strings list.

(* ********************************************************************* *)
(** * Part I. The program                                                  *)
(* ********************************************************************* *)

(* ===================================================================== *)
(** * 1. JavaScript strings                                               *)
(* ===================================================================== *)

(** Strings are sequences of code units.  Every pattern the program
    searches for is plain ASCII, so matching on bytes and matching on
    UTF-16 code units agree. *)

(** [strip_prefix p s] is [Some rest] when [s] starts with [p]. *)
Fixpoint strip_prefix (p s : string) : option string :=
  match p, s with
  | EmptyString, _ => Some s
  | String a p', String b s' =>
      if Ascii.eqb a b then strip_prefix p' s' else None
  | String _ _, EmptyString => None
  end.

(** [String.prototype.replace(pattern, replacement)] with a string
    pattern: the leftmost occurrence of [pat] is swapped for [rep], the
    rest of the string is kept; without an occurrence the string comes
    back unchanged.  The replacement strings of this program hold no
    dollar sign, so the special replacement patterns never apply. *)
Fixpoint replace (pat rep s : string) : string :=
  match strip_prefix pat s with
  | Some rest => rep +:+ rest
  | None =>
      match s with
      | EmptyString => EmptyString
      | String c s' => String c (replace pat rep s')
      end
  end.

(** [String.prototype.startsWith]. *)
Definition startsWith (s p : string) : bool :=
  match strip_prefix p s with Some _ => true | None => false end.

(** [fill_chars n fill cur] yields [n] characters read cyclically from
    [fill], continuing at [cur]. *)
Fixpoint fill_chars (n : nat) (fill cur : string) : string :=
  match n with
  | O => EmptyString
  | S n' =>
      match cur with
      | String c cur' => String c (fill_chars n' fill cur')
      | EmptyString =>
          match fill with
          | String c fill' => String c (fill_chars n' fill fill')
          | EmptyString => EmptyString
          end
      end
  end.

(** [String.prototype.padStart(targetLength, padString)]. *)
Definition padStart (targetLength : nat) (padString s : string) : string :=
  fill_chars (targetLength - String.length s) padString padString +:+ s.

(** [Number.prototype.toString()] on the integers the program prints. *)
Definition nat_toString (n : nat) : string :=
  NilZero.string_of_uint (Nat.to_uint n).

Definition Z_toString (z : Z) : string :=
  NilZero.string_of_int (Z.to_int z).

(* ===================================================================== *)
(** * 2. Format engine (utils/formatPresets.ts)                           *)
(* ===================================================================== *)

(** A [Date] as [formatDate] reads it: the local-time getters.
    [getMonth] counts from 0, [getDate] from 1. *)
Record JsDate : Type := mkDate {
  getFullYear : Z;
  getMonth : nat;
  getDate : nat;
  getHours : nat;
  getMinutes : nat;
  getSeconds : nat
}.

Definition MONTH_NAMES : list string :=
  [ "January"; "February"; "March"; "April"; "May"; "June";
    "July"; "August"; "September"; "October"; "November"; "December" ].

Definition MONTH_SHORT : list string :=
  [ "Jan"; "Feb"; "Mar"; "Apr"; "May"; "Jun";
    "Jul"; "Aug"; "Sep"; "Oct"; "Nov"; "Dec" ].

(** Indexing an array out of range gives [undefined], which [replace]
    prints as the text "undefined". *)
Definition array_get (xs : list string) (i : nat) : string :=
  nth i xs "undefined".

Definition pad (n : nat) : string := padStart 2 "0" (nat_toString n).

Definition hours12 (d : JsDate) : nat :=
  let h := getHours d mod 12 in if Nat.eqb h 0 then 12 else h.

Definition ampm (d : JsDate) : string :=
  if Nat.leb 12 (getHours d) then "PM" else "AM".

Definition formatDate (date : JsDate) (format : string) : string :=
  let s := replace "YYYY" (Z_toString (getFullYear date)) format in
  let s := replace "MMMM" (array_get MONTH_NAMES (getMonth date)) s in
  let s := replace "MMM" (array_get MONTH_SHORT (getMonth date)) s in
  let s := replace "MM" (pad (getMonth date + 1)) s in
  let s := replace "DD" (pad (getDate date)) s in
  let s := replace "HH" (pad (getHours date)) s in
  let s := replace "hh" (pad (hours12 date)) s in
  let s := replace "mm" (pad (getMinutes date)) s in
  let s := replace "ss" (pad (getSeconds date)) s in
  replace "A" (ampm date) s.

Definition combineFormats (dateFormat timeFormat : string) : string :=
  if String.eqb timeFormat "" then dateFormat
  else dateFormat +:+ " " +:+ timeFormat.

(** The preset tables of the format menus. *)
Record FormatPreset : Type := mkPreset {
  value : string;
  label : string;
  example : string
}.

Definition DATE_FORMAT_PRESETS : list FormatPreset :=
  [ mkPreset "YYYY-MM-DD" "ISO (2026-01-18)" "2026-01-18";
    mkPreset "MM/DD/YYYY" "US (01/18/2026)" "01/18/2026";
    mkPreset "DD/MM/YYYY" "EU (18/01/2026)" "18/01/2026";
    mkPreset "DD MMM YYYY" "Short (18 Jan 2026)" "18 Jan 2026";
    mkPreset "MMMM DD, YYYY" "Long (January 18, 2026)" "January 18, 2026";
    mkPreset "DD.MM.YYYY" "Dotted (18.01.2026)" "18.01.2026" ].

Definition TIME_FORMAT_PRESETS : list FormatPreset :=
  [ mkPreset "HH:mm:ss" "24h with seconds (14:30:45)" "14:30:45";
    mkPreset "HH:mm" "24h (14:30)" "14:30";
    mkPreset "hh:mm:ss A" "12h with seconds (02:30:45 PM)" "02:30:45 PM";
    mkPreset "hh:mm A" "12h (02:30 PM)" "02:30 PM";
    mkPreset "" "No time" "" ].

(** The token vocabulary, in the order [formatDate] substitutes it. *)
Definition TOKENS : list string :=
  [ "YYYY"; "MMMM"; "MMM"; "MM"; "DD"; "HH"; "hh"; "mm"; "ss"; "A" ].

(* ===================================================================== *)
(** * 3. Metadata resolver ([extractImageMetadata], App.tsx)              *)
(* ===================================================================== *)

(** The time value inside a [Date] object.  [TimeOfString s] stands for
    whatever instant the engine's date parser reads out of [s]. *)
Inductive TimeValue : Type :=
| TimeMs (ms : Z)
| TimeOfString (s : string)
| InvalidDate.

(** The JavaScript values a metadata field can carry. *)
Inductive JsValue : Type :=
| VUndefined
| VNull
| VBool (b : bool)
| VNumber (n : Z)
| VNaN
| VString (s : string)
| VDate (t : TimeValue).

(** Truthiness, as an [if] condition tests it. *)
Definition truthy (v : JsValue) : bool :=
  match v with
  | VUndefined | VNull | VNaN => false
  | VBool b => b
  | VNumber n => negb (Z.eqb n 0)
  | VString s => negb (String.eqb s "")
  | VDate _ => true
  end.

(** [new Date(value)]: a [Date] is copied, a string is parsed, any other
    primitive is converted to a number of milliseconds and clipped to
    the range of valid time values. *)
Definition timeClip (n : Z) : TimeValue :=
  if Z.leb (Z.abs n) 8640000000000000 then TimeMs n else InvalidDate.

Definition newDate (v : JsValue) : TimeValue :=
  match v with
  | VDate t => t
  | VString s => TimeOfString s
  | VNumber n => timeClip n
  | VBool b => TimeMs (if b then 1 else 0)
  | VNull => TimeMs 0
  | VUndefined | VNaN => InvalidDate
  end.

(** A call that either returns or throws. *)
Inductive Outcome (A : Type) : Type :=
| Returns (a : A)
| Throws.
Arguments Returns {A} a.
Arguments Throws {A}.

(** What [exifr.parse] resolves to: [undefined] ([None]) when the file
    has no metadata block, otherwise an object with the picked tags. *)
Definition ExifData : Type := option (gmap string JsValue).

(** [exifData?.key]: [undefined] when the object or the property is
    missing. *)
Definition optional_get (exifData : ExifData) (key : string) : JsValue :=
  match exifData with
  | None => VUndefined
  | Some obj => default VUndefined (obj !! key)
  end.

Record MetadataResult : Type := mkMetadata {
  date : option TimeValue;      (* Date | null *)
  usedFallback : bool
}.

(** [parsed] is the outcome of [await exifr.parse(file, {pick: ...})],
    [now] the clock reading of [new Date()]. *)
Definition extractImageMetadata
    (parsed : Outcome ExifData) (now : TimeValue) : MetadataResult :=
  let fallback := mkMetadata (Some now) true in
  match parsed with
  | Returns exifData =>
      if truthy (optional_get exifData "DateTimeOriginal") then
        mkMetadata (Some (newDate (optional_get exifData "DateTimeOriginal"))) false
      else if truthy (optional_get exifData "CreateDate") then
        mkMetadata (Some (newDate (optional_get exifData "CreateDate"))) false
      else if truthy (optional_get exifData "ModifyDate") then
        mkMetadata (Some (newDate (optional_get exifData "ModifyDate"))) false
      else fallback
  | Throws => fallback
  end.

(* ===================================================================== *)
(** * 4. Overlay compositor ([processImage], App.tsx)                     *)
(* ===================================================================== *)

(** Numbers of the style configuration and of the canvas are modelled as
    exact rationals. *)
Local Open Scope Q_scope.

Inductive Position : Type := bottomRight | bottomLeft | topRight | topLeft.

Record ImageConfig : Type := mkConfig {
  fontSize : Q;
  fontFamily : string;
  fontColor : string;
  strokeColor : string;
  strokeWidth : Q;
  position : Position;
  offsetX : Q;
  offsetY : Q;
  dropShadowEnabled : bool;
  dropShadowBlur : Q;
  dropShadowOffsetX : Q;
  dropShadowOffsetY : Q;
  dropShadowColor : string;
  dateFormatPreset : string;
  timeFormatPreset : string;
  dateFormat : string;
  useCustomFormat : bool
}.

Definition DEFAULT_CONFIG : ImageConfig := {|
  fontSize := 120;
  fontFamily := "Inter";
  fontColor := "#FBBF24";
  strokeColor := "#000000";
  strokeWidth := 5;
  position := bottomRight;
  offsetX := 20;
  offsetY := 20;
  dropShadowEnabled := false;
  dropShadowBlur := 4;
  dropShadowOffsetX := 2;
  dropShadowOffsetY := 2;
  dropShadowColor := "rgba(0, 0, 0, 0.5)";
  dateFormatPreset := "YYYY-MM-DD";
  timeFormatPreset := "HH:mm:ss";
  dateFormat := "YYYY-MM-DD HH:mm:ss";
  useCustomFormat := false
|}.

(** The value of [ctx.font]: weight, pixel size and the family chain. *)
Record Font : Type := mkFont {
  fontWeight : string;
  fontPx : Q;
  fontFamilies : list string
}.

(** The drawing state of a 2D context, as far as the compositor sets or
    relies on it. *)
Record Context2D : Type := mkContext {
  font : Font;
  textBaseline : string;
  shadowBlur : Q;
  shadowOffsetX : Q;
  shadowOffsetY : Q;
  shadowColor : string;
  strokeStyle : string;
  lineWidth : Q;
  lineJoin : string;
  fillStyle : string
}.

(** The state of the context a new canvas hands out. *)
Definition fresh_context : Context2D := {|
  font := mkFont "normal" 10 ["sans-serif"];
  textBaseline := "alphabetic";
  shadowBlur := 0;
  shadowOffsetX := 0;
  shadowOffsetY := 0;
  shadowColor := "rgba(0, 0, 0, 0)";
  strokeStyle := "#000000";
  lineWidth := 1;
  lineJoin := "miter";
  fillStyle := "#000000"
|}.

(** Assignments to the context's fields. *)
Definition set_font (v : Font) (c : Context2D) : Context2D :=
  mkContext v (textBaseline c) (shadowBlur c) (shadowOffsetX c) (shadowOffsetY c)
            (shadowColor c) (strokeStyle c) (lineWidth c) (lineJoin c) (fillStyle c).
Definition set_textBaseline (v : string) (c : Context2D) : Context2D :=
  mkContext (font c) v (shadowBlur c) (shadowOffsetX c) (shadowOffsetY c)
            (shadowColor c) (strokeStyle c) (lineWidth c) (lineJoin c) (fillStyle c).
Definition set_shadowBlur (v : Q) (c : Context2D) : Context2D :=
  mkContext (font c) (textBaseline c) v (shadowOffsetX c) (shadowOffsetY c)
            (shadowColor c) (strokeStyle c) (lineWidth c) (lineJoin c) (fillStyle c).
Definition set_shadowOffsetX (v : Q) (c : Context2D) : Context2D :=
  mkContext (font c) (textBaseline c) (shadowBlur c) v (shadowOffsetY c)
            (shadowColor c) (strokeStyle c) (lineWidth c) (lineJoin c) (fillStyle c).
Definition set_shadowOffsetY (v : Q) (c : Context2D) : Context2D :=
  mkContext (font c) (textBaseline c) (shadowBlur c) (shadowOffsetX c) v
            (shadowColor c) (strokeStyle c) (lineWidth c) (lineJoin c) (fillStyle c).
Definition set_shadowColor (v : string) (c : Context2D) : Context2D :=
  mkContext (font c) (textBaseline c) (shadowBlur c) (shadowOffsetX c) (shadowOffsetY c)
            v (strokeStyle c) (lineWidth c) (lineJoin c) (fillStyle c).
Definition set_strokeStyle (v : string) (c : Context2D) : Context2D :=
  mkContext (font c) (textBaseline c) (shadowBlur c) (shadowOffsetX c) (shadowOffsetY c)
            (shadowColor c) v (lineWidth c) (lineJoin c) (fillStyle c).
Definition set_lineWidth (v : Q) (c : Context2D) : Context2D :=
  mkContext (font c) (textBaseline c) (shadowBlur c) (shadowOffsetX c) (shadowOffsetY c)
            (shadowColor c) (strokeStyle c) v (lineJoin c) (fillStyle c).
Definition set_lineJoin (v : string) (c : Context2D) : Context2D :=
  mkContext (font c) (textBaseline c) (shadowBlur c) (shadowOffsetX c) (shadowOffsetY c)
            (shadowColor c) (strokeStyle c) (lineWidth c) v (fillStyle c).
Definition set_fillStyle (v : string) (c : Context2D) : Context2D :=
  mkContext (font c) (textBaseline c) (shadowBlur c) (shadowOffsetX c) (shadowOffsetY c)
            (shadowColor c) (strokeStyle c) (lineWidth c) (lineJoin c) v.

(** A drawing call, with the context state it was issued under. *)
Inductive DrawCall : Type :=
| DrawImage (x y : Q)
| StrokeText (text : string) (x y : Q) (state : Context2D)
| FillText (text : string) (x y : Q) (state : Context2D).

(** A canvas while it is drawn on: the context state and the calls
    issued so far, oldest first. *)
Record Canvas : Type := mkCanvas {
  ctx : Context2D;
  calls : list DrawCall
}.

Definition assign (f : Context2D -> Context2D) (cv : Canvas) : Canvas :=
  mkCanvas (f (ctx cv)) (calls cv).
Definition drawImage (x y : Q) (cv : Canvas) : Canvas :=
  mkCanvas (ctx cv) (calls cv ++ [DrawImage x y]).
Definition strokeText (text : string) (x y : Q) (cv : Canvas) : Canvas :=
  mkCanvas (ctx cv) (calls cv ++ [StrokeText text x y (ctx cv)]).
Definition fillText (text : string) (x y : Q) (cv : Canvas) : Canvas :=
  mkCanvas (ctx cv) (calls cv ++ [FillText text x y (ctx cv)]).

(** A decoded image: its pixel dimensions. *)
Record Image : Type := mkImage { imgWidth : nat; imgHeight : nat }.

Definition Q_of_nat (n : nat) : Q := inject_Z (Z.of_nat n).

(** [Math.max(Math.min(config.fontSize, img.width / 10), 24)]. *)
Definition relativeFontSize (config : ImageConfig) (img : Image) : Q :=
  Qmax (Qmin (fontSize config) (Q_of_nat (imgWidth img) / 10)) 24.

(** The [switch (config.position)] that places the text. *)
Definition textPosition (config : ImageConfig) (img : Image)
    (textWidth relFontSize : Q) : Q * Q :=
  match position config with
  | bottomRight =>
      (Q_of_nat (imgWidth img) - textWidth - offsetX config,
       Q_of_nat (imgHeight img) - offsetY config)
  | bottomLeft =>
      (offsetX config,
       Q_of_nat (imgHeight img) - offsetY config)
  | topRight =>
      (Q_of_nat (imgWidth img) - textWidth - offsetX config,
       relFontSize + offsetY config)
  | topLeft =>
      (offsetX config,
       relFontSize + offsetY config)
  end.

(** [a > 0] on numbers. *)
Definition Qpositive (a : Q) : bool := negb (Qle_bool a 0).

Section Compositor.

(** [ctx.measureText(text).width] under a given font: the text shaping
    of the platform. *)
Variable measureText : Font -> string -> Q.

(** The body of [img.onload] from [ctx.drawImage] to [ctx.fillText], on
    the context of a new canvas. *)
Definition drawOverlay (config : ImageConfig) (img : Image)
    (timestamp : string) : Canvas :=
  let cv := mkCanvas fresh_context [] in
  let cv := drawImage 0 0 cv in
  let relFontSize := relativeFontSize config img in
  let cv := assign (set_font (mkFont "bold" relFontSize
                                [fontFamily config; "system-ui"; "sans-serif"])) cv in
  let cv := assign (set_textBaseline "bottom") cv in
  let textWidth := measureText (font (ctx cv)) timestamp in
  let '(x, y) := textPosition config img textWidth relFontSize in
  let cv :=
    if dropShadowEnabled config then
      let cv := assign (set_shadowBlur (dropShadowBlur config)) cv in
      let cv := assign (set_shadowOffsetX (dropShadowOffsetX config)) cv in
      let cv := assign (set_shadowOffsetY (dropShadowOffsetY config)) cv in
      assign (set_shadowColor (dropShadowColor config)) cv
    else cv in
  let cv :=
    if Qpositive (strokeWidth config) then
      let cv := assign (set_strokeStyle (strokeColor config)) cv in
      let cv := assign (set_lineWidth (strokeWidth config)) cv in
      let cv := assign (set_lineJoin "round") cv in
      strokeText timestamp x y cv
    else cv in
  let cv := assign (set_shadowBlur 0) cv in
  let cv := assign (set_shadowOffsetX 0) cv in
  let cv := assign (set_shadowOffsetY 0) cv in
  let cv := assign (set_fillStyle (fontColor config)) cv in
  fillText timestamp x y cv.

End Compositor.

Local Close Scope Q_scope.

(* ===================================================================== *)
(** * 5. Batch orchestrator ([handleFiles], [handleClearAll], App.tsx)    *)
(* ===================================================================== *)

Inductive Status : Type := processing | done | error.

(** The record of one submitted file.  Its [usedFallback] field is
    spelled [usedFallback_] here, the plain name being the field of
    [MetadataResult]. *)
Record ProcessedImage : Type := mkProcessed {
  id : string;
  originalName : string;
  processedUrl : string;
  timestamp : string;
  usedFallback_ : bool;
  status : Status
}.

(** A submitted file, as its readers see it: its name and content type,
    what [exifr.parse] makes of it, and what the image decoder makes of
    it ([None] when [img.onerror] fires). *)
Record File : Type := mkFile {
  name : string;
  type : string;
  exif : Outcome ExifData;
  decoded : option Image
}.

(** What an object URL points to. *)
Inductive UrlTarget : Type :=
| SourceFile (fileName : string)
| EncodedCanvas (cv : Canvas).

(** The part of the browser the pipeline reads and writes: the clock,
    the table of live object URLs, and the counters behind fresh URLs
    and fresh ids. *)
Record World : Type := mkWorld {
  clock : TimeValue;
  objectUrls : gmap string UrlTarget;
  urlCounter : nat;
  idCounter : nat
}.

Definition createObjectURL (target : UrlTarget) (w : World) : string * World :=
  let url := "blob:" +:+ nat_toString (urlCounter w) in
  (url, mkWorld (clock w) (<[url := target]> (objectUrls w))
                (S (urlCounter w)) (idCounter w)).

Definition revokeObjectURL (url : string) (w : World) : World :=
  mkWorld (clock w) (delete url (objectUrls w)) (urlCounter w) (idCounter w).

(** What [processImage] resolves with: [{ url, timestamp, usedFallback }]. *)
Record ProcessResult : Type := mkResult {
  url : string;
  result_timestamp : string;
  result_usedFallback : bool
}.

Record AppState : Type := mkApp {
  images : list ProcessedImage;
  isProcessing : bool;
  lightboxOpen : bool;
  world : World
}.

Definition setImages (f : list ProcessedImage -> list ProcessedImage)
    (st : AppState) : AppState :=
  mkApp (f (images st)) (isProcessing st) (lightboxOpen st) (world st).
Definition setIsProcessing (b : bool) (st : AppState) : AppState :=
  mkApp (images st) b (lightboxOpen st) (world st).
Definition setLightboxOpen (b : bool) (st : AppState) : AppState :=
  mkApp (images st) (isProcessing st) b (world st).
Definition setWorld (w : World) (st : AppState) : AppState :=
  mkApp (images st) (isProcessing st) (lightboxOpen st) w.

(** The two updates of the processing loop, as mapped over the
    collection. *)
Definition markDone (imageId : string) (result : ProcessResult)
    (img : ProcessedImage) : ProcessedImage :=
  if String.eqb (id img) imageId then
    mkProcessed (id img) (originalName img) (url result)
                (result_timestamp result) (result_usedFallback result) done
  else img.

Definition markError (imageId : string) (img : ProcessedImage) : ProcessedImage :=
  if String.eqb (id img) imageId then
    mkProcessed (id img) (originalName img) (processedUrl img)
                (timestamp img) (usedFallback_ img) error
  else img.

Section Orchestrator.

(** The platform services the pipeline calls. *)
Variable localTime : TimeValue -> JsDate.      (* the local-time getters of a Date *)
Variable measureText : Font -> string -> Q.    (* text shaping *)
Variable getContext : Image -> bool.           (* canvas.getContext("2d") is not null *)
Variable encodes : Image -> bool.              (* canvas.toBlob hands over a blob *)
Variable drawId : nat -> string.               (* the id built from the n-th draw of clock and random source *)

Definition processImage (file : File) (config : ImageConfig) (w : World)
    : Outcome ProcessResult * World :=
  let meta := extractImageMetadata (exif file) (clock w) in
  let instant := match date meta with Some d => d | None => clock w end in
  let timestamp := formatDate (localTime instant) (dateFormat config) in
  let '(_, w) := createObjectURL (SourceFile (name file)) w in
  match decoded file with
  | None => (Throws, w)
  | Some img =>
      if getContext img then
        let cv := drawOverlay measureText config img timestamp in
        if encodes img then
          let '(url, w) := createObjectURL (EncodedCanvas cv) w in
          (Returns (mkResult url timestamp (usedFallback meta)), w)
        else (Throws, w)
      else (Throws, w)
  end.

(** The [for] loop of [handleFiles] over the valid files and their
    records. *)
Fixpoint processLoop (config : ImageConfig)
    (work : list (File * ProcessedImage)) (st : AppState) : AppState :=
  match work with
  | [] => st
  | (file, newImage) :: rest =>
      let imageId := id newImage in
      let '(outcome, w) := processImage file config (world st) in
      let st := setWorld w st in
      let st :=
        match outcome with
        | Returns result => setImages (map (markDone imageId result)) st
        | Throws => setImages (map (markError imageId)) st
        end in
      processLoop config rest st
  end.

(** [validFiles.map(file => ({ id: ..., status: "processing" }))]. *)
Fixpoint newRecords (validFiles : list File) (n : nat) : list ProcessedImage :=
  match validFiles with
  | [] => []
  | file :: rest =>
      mkProcessed (drawId n) (name file) "" "" false processing
        :: newRecords rest (S n)
  end.

Definition validFilesOf (files : list File) : list File :=
  filter (fun file => startsWith (type file) "image/" = true) files.

(** [handleFiles] up to the start of the loop: the state with the new
    records appended, and the work list of the loop. *)
Definition submit (files : list File) (st : AppState)
    : list (File * ProcessedImage) * AppState :=
  let validFiles := validFilesOf files in
  let st := setIsProcessing true st in
  let w := world st in
  let newImages := newRecords validFiles (idCounter w) in
  let st := setWorld (mkWorld (clock w) (objectUrls w) (urlCounter w)
                              (idCounter w + length validFiles)) st in
  let st := setImages (fun prev => prev ++ newImages) st in
  (zip validFiles newImages, st).

Definition handleFiles (files : list File) (config : ImageConfig)
    (st : AppState) : AppState :=
  match validFilesOf files with
  | [] => st
  | _ :: _ =>
      let '(work, st) := submit files st in
      let st := processLoop config work st in
      setIsProcessing false st
  end.

(** The [forEach] of [handleClearAll]: revoke the output URL of every
    record that has one. *)
Definition revokeOutputs (st : AppState) : AppState :=
  setWorld
    (fold_left
       (fun w img =>
          if negb (String.eqb (processedUrl img) "")
          then revokeObjectURL (processedUrl img) w else w)
       (images st) (world st))
    st.

Definition handleClearAll (st : AppState) : AppState :=
  let st := revokeOutputs st in
  let st := setImages (fun _ => []) st in
  setLightboxOpen false st.

End Orchestrator.

(* ===================================================================== *)
(** * 6. Downloads and the viewer (App.tsx, Lightbox.tsx)                 *)
(* ===================================================================== *)

(** ** Download names *)

(** The character class [[^/.]] of the extension pattern. *)
Definition extension_char (c : ascii) : bool :=
  negb (Ascii.eqb c "/") && negb (Ascii.eqb c ".").

Fixpoint all_extension_chars (s : string) : bool :=
  match s with
  | EmptyString => true
  | String c s' => extension_char c && all_extension_chars s'
  end.

(** The pattern [/\.[^/.]+$/] tried at the start of [s]: a dot, then at
    least one character, none of them a slash or a dot, up to the end. *)
Definition matches_extension (s : string) : bool :=
  match s with
  | EmptyString => false
  | String c rest =>
      Ascii.eqb c "." && negb (String.eqb rest "") && all_extension_chars rest
  end.

(** [name.replace(/\.[^/.]+$/, "")]: the pattern is tried at every
    position from the left, and the first match is cut out. *)
Fixpoint stripExtension (s : string) : string :=
  if matches_extension s then EmptyString
  else match s with
       | EmptyString => EmptyString
       | String c s' => String c (stripExtension s')
       end.

(** [`stamped_${name.replace(/\.[^/.]+$/, "")}.png`]. *)
Definition downloadName (originalName : string) : string :=
  "stamped_" +:+ stripExtension originalName +:+ ".png".

(** A click on a temporary [<a href download>] link. *)
Record Download : Type := mkDownload {
  href : string;
  download : string
}.

Definition handleDownloadSingle (image : ProcessedImage) : Download :=
  mkDownload (processedUrl image) (downloadName (originalName image)).

Definition isDone (img : ProcessedImage) : bool :=
  match status img with done => true | processing | error => false end.

(** [images.filter((img) => img.status === "done")]. *)
Definition doneImagesOf (images : list ProcessedImage) : list ProcessedImage :=
  List.filter isDone images.

(** The [for] loop of [handleDownloadAll]: each image is fetched from
    its object URL and filed in the archive under its download name.
    Fetching a URL that is not live rejects; [zip.file] replaces an
    entry of the same name.  File names hold no slash, so no folder
    entries arise. *)
Fixpoint zipEntries (doneImages : list ProcessedImage) (w : World)
    (zip : gmap string UrlTarget) : Outcome (gmap string UrlTarget) :=
  match doneImages with
  | [] => Returns zip
  | image :: rest =>
      match objectUrls w !! processedUrl image with
      | None => Throws
      | Some blob =>
          zipEntries rest w (<[downloadName (originalName image) := blob]> zip)
      end
  end.

(** What [handleDownloadAll] ends up doing. *)
Inductive DownloadAction : Type :=
| NoDownload
| DirectDownload (link : Download)
| ZipDownload (zip : gmap string UrlTarget) (link : Download).

(** [handleDownloadAll].  The URL minted for the archive takes the next
    number of the URL counter; the table [objectUrls] keeps track of
    source files and encoded canvases only. *)
Definition handleDownloadAll (images : list ProcessedImage) (w : World)
    : Outcome DownloadAction * World :=
  match doneImagesOf images with
  | [] => (Returns NoDownload, w)
  | [image] => (Returns (DirectDownload (handleDownloadSingle image)), w)
  | doneImages =>
      match zipEntries doneImages w ∅ with
      | Throws => (Throws, w)
      | Returns zip =>
          let zipUrl := "blob:" +:+ nat_toString (urlCounter w) in
          (Returns (ZipDownload zip (mkDownload zipUrl "metastamp_images.zip")),
           mkWorld (clock w) (objectUrls w) (S (urlCounter w)) (idCounter w))
      end
  end.

(** ** The viewer *)

(** [clampIndex] of Lightbox.tsx. *)
Definition clampIndex (index len : Z) : Z :=
  if Z.leb len 0 then 0%Z
  else Z.max 0 (Z.min index (len - 1)).

(** [goPrev] and [goNext] as updates of the index, for a list of [len]
    images; [%] is the remainder that takes the sign of the dividend. *)
Definition goPrev (len i : Z) : Z :=
  if Z.leb len 1 then i else Z.rem (i - 1 + len) len.

Definition goNext (len i : Z) : Z :=
  if Z.leb len 1 then i else Z.rem (i + 1) len.

Record LightboxImage : Type := mkLightboxImage {
  src : string;
  alt : string;
  lightbox_downloadName : option string;
  subtitle : option string
}.

(** [lightboxImages] of App.tsx. *)
Definition lightboxImagesOf (images : list ProcessedImage) : list LightboxImage :=
  map (fun img =>
         mkLightboxImage (processedUrl img) (originalName img)
                         (Some (downloadName (originalName img)))
                         (Some (timestamp img)))
      (doneImagesOf images).

(** [Array.prototype.findIndex] with the test [img.id === imageId];
    the result is -1 when no element passes. *)
Fixpoint findIndexById (imageId : string) (l : list ProcessedImage) : Z :=
  match l with
  | [] => (-1)%Z
  | img :: rest =>
      if String.eqb (id img) imageId then 0%Z
      else let r := findIndexById imageId rest in
           if Z.ltb r 0 then (-1)%Z else (r + 1)%Z
  end.

(** The viewer state the App keeps next to its other state. *)
Record Viewer : Type := mkViewer {
  viewerOpen : bool;
  lightboxIndex : Z
}.

Definition openLightboxForId (images : list ProcessedImage) (imageId : string)
    (v : Viewer) : Viewer :=
  let idx := findIndexById imageId (doneImagesOf images) in
  if Z.ltb idx 0 then v
  else mkViewer true idx.

(** The effect of App.tsx that keeps the viewer consistent with the
    list of done images. *)
Definition syncViewer (images : list ProcessedImage) (v : Viewer) : Viewer :=
  if negb (viewerOpen v) then v
  else
    let len := Z.of_nat (length (lightboxImagesOf images)) in
    let v := if Z.eqb len 0 then mkViewer false (lightboxIndex v) else v in
    if Z.leb len (lightboxIndex v)
    then mkViewer (viewerOpen v) (Z.max 0 (len - 1))
    else v.

(** [link.download = image.downloadName || "image"]. *)
Definition handleLightboxDownload (image : LightboxImage) : Download :=
  mkDownload (src image)
             (match lightbox_downloadName image with
              | Some n => if String.eqb n "" then "image" else n
              | None => "image"
              end).

(* ===================================================================== *)
(** * 7. Settings panel (components/SettingsPanel.tsx)                    *)
(* ===================================================================== *)

(** A key of [ImageConfig] together with a value of its type: the two
    arguments of [updateConfig(key, value)]. *)
Inductive ConfigEntry : Type :=
| fontSize_is (v : Q)
| fontFamily_is (v : string)
| fontColor_is (v : string)
| strokeColor_is (v : string)
| strokeWidth_is (v : Q)
| position_is (v : Position)
| offsetX_is (v : Q)
| offsetY_is (v : Q)
| dropShadowEnabled_is (v : bool)
| dropShadowBlur_is (v : Q)
| dropShadowOffsetX_is (v : Q)
| dropShadowOffsetY_is (v : Q)
| dropShadowColor_is (v : string)
| dateFormatPreset_is (v : string)
| timeFormatPreset_is (v : string)
| dateFormat_is (v : string)
| useCustomFormat_is (v : bool).

(** [{ ...config, [key]: value }]. *)
Definition withEntry (c : ImageConfig) (e : ConfigEntry) : ImageConfig :=
  mkConfig
    (match e with fontSize_is v => v | _ => fontSize c end)
    (match e with fontFamily_is v => v | _ => fontFamily c end)
    (match e with fontColor_is v => v | _ => fontColor c end)
    (match e with strokeColor_is v => v | _ => strokeColor c end)
    (match e with strokeWidth_is v => v | _ => strokeWidth c end)
    (match e with position_is v => v | _ => position c end)
    (match e with offsetX_is v => v | _ => offsetX c end)
    (match e with offsetY_is v => v | _ => offsetY c end)
    (match e with dropShadowEnabled_is v => v | _ => dropShadowEnabled c end)
    (match e with dropShadowBlur_is v => v | _ => dropShadowBlur c end)
    (match e with dropShadowOffsetX_is v => v | _ => dropShadowOffsetX c end)
    (match e with dropShadowOffsetY_is v => v | _ => dropShadowOffsetY c end)
    (match e with dropShadowColor_is v => v | _ => dropShadowColor c end)
    (match e with dateFormatPreset_is v => v | _ => dateFormatPreset c end)
    (match e with timeFormatPreset_is v => v | _ => timeFormatPreset c end)
    (match e with dateFormat_is v => v | _ => dateFormat c end)
    (match e with useCustomFormat_is v => v | _ => useCustomFormat c end).

(** [updateConfig]: the configuration handed to [onChange]. *)
Definition updateConfig (config : ImageConfig) (e : ConfigEntry) : ImageConfig :=
  let newConfig := withEntry config e in
  let presetKey :=
    match e with
    | dateFormatPreset_is _ | timeFormatPreset_is _ => true
    | _ => false
    end in
  if presetKey && negb (useCustomFormat config) then
    let datePreset :=
      match e with dateFormatPreset_is v => v | _ => dateFormatPreset config end in
    let timePreset :=
      match e with timeFormatPreset_is v => v | _ => timeFormatPreset config end in
    withEntry newConfig (dateFormat_is (combineFormats datePreset timePreset))
  else newConfig.

(** [handleCustomFormatToggle]: the configuration handed to [onChange]. *)
Definition handleCustomFormatToggle (config : ImageConfig) (useCustom : bool)
    : ImageConfig :=
  let newConfig := withEntry config (useCustomFormat_is useCustom) in
  if negb useCustom then
    withEntry newConfig
      (dateFormat_is (combineFormats (dateFormatPreset config)
                                     (timeFormatPreset config)))
  else newConfig.

(* ===================================================================== *)
(** * 8. Overlay preview (components/OverlayPreview.tsx)                  *)
(* ===================================================================== *)

(** The preview canvas has the fixed size of the sample image. *)
Definition SAMPLE_IMAGE_WIDTH : nat := 800.
Definition SAMPLE_IMAGE_HEIGHT : nat := 600.

Definition previewSurface : Image :=
  mkImage SAMPLE_IMAGE_WIDTH SAMPLE_IMAGE_HEIGHT.

(** [ctx.clearRect(0, 0, canvas.width, canvas.height)]: what was drawn
    on the canvas before is wiped; the context state stays. *)
Definition clearCanvas (cv : Canvas) : Canvas := mkCanvas (ctx cv) [].

Section Preview.

Variable measureText : Font -> string -> Q.

(** The body of the drawing effect of [OverlayPreview].  The canvas of
    the preview lives on between renders, so the effect starts from the
    canvas [prior] the last render left behind. *)
Definition drawPreview (config : ImageConfig) (timestamp : string)
    (prior : Canvas) : Canvas :=
  let cv := clearCanvas prior in
  let cv := drawImage 0 0 cv in
  let relFontSize := relativeFontSize config previewSurface in
  let cv := assign (set_font (mkFont "bold" relFontSize
                                [fontFamily config; "system-ui"; "sans-serif"])) cv in
  let cv := assign (set_textBaseline "bottom") cv in
  let textWidth := measureText (font (ctx cv)) timestamp in
  let '(x, y) := textPosition config previewSurface textWidth relFontSize in
  let cv :=
    if dropShadowEnabled config then
      let cv := assign (set_shadowBlur (dropShadowBlur config)) cv in
      let cv := assign (set_shadowOffsetX (dropShadowOffsetX config)) cv in
      let cv := assign (set_shadowOffsetY (dropShadowOffsetY config)) cv in
      assign (set_shadowColor (dropShadowColor config)) cv
    else
      let cv := assign (set_shadowBlur 0) cv in
      let cv := assign (set_shadowOffsetX 0) cv in
      let cv := assign (set_shadowOffsetY 0) cv in
      assign (set_shadowColor "transparent") cv in
  let cv :=
    if Qpositive (strokeWidth config) then
      let cv := assign (set_strokeStyle (strokeColor config)) cv in
      let cv := assign (set_lineWidth (strokeWidth config)) cv in
      let cv := assign (set_lineJoin "round") cv in
      strokeText timestamp x y cv
    else cv in
  let cv := assign (set_shadowBlur 0) cv in
  let cv := assign (set_shadowOffsetX 0) cv in
  let cv := assign (set_shadowOffsetY 0) cv in
  let cv := assign (set_fillStyle (fontColor config)) cv in
  fillText timestamp x y cv.

End Preview.

(* ===================================================================== *)
(** * 9. Preference store (utils/configStorage.ts)                        *)
(* ===================================================================== *)

(** JSON values, as [JSON.parse] builds them. *)
#[warnings="-register-all"]
Inductive Json : Type :=
| JNull
| JBool (b : bool)
| JNumber (n : Q)
| JString (s : string)
| JArray (items : list Json)
| JObject (fields : gmap string Json).

Definition Position_toString (p : Position) : string :=
  match p with
  | bottomRight => "bottomRight"
  | bottomLeft => "bottomLeft"
  | topRight => "topRight"
  | topLeft => "topLeft"
  end.

(** An [ImageConfig] as the object it is at run time. *)
Definition configObject (c : ImageConfig) : gmap string Json :=
  list_to_map
    [ ("fontSize", JNumber (fontSize c));
      ("fontFamily", JString (fontFamily c));
      ("fontColor", JString (fontColor c));
      ("strokeColor", JString (strokeColor c));
      ("strokeWidth", JNumber (strokeWidth c));
      ("position", JString (Position_toString (position c)));
      ("offsetX", JNumber (offsetX c));
      ("offsetY", JNumber (offsetY c));
      ("dropShadowEnabled", JBool (dropShadowEnabled c));
      ("dropShadowBlur", JNumber (dropShadowBlur c));
      ("dropShadowOffsetX", JNumber (dropShadowOffsetX c));
      ("dropShadowOffsetY", JNumber (dropShadowOffsetY c));
      ("dropShadowColor", JString (dropShadowColor c));
      ("dateFormatPreset", JString (dateFormatPreset c));
      ("timeFormatPreset", JString (timeFormatPreset c));
      ("dateFormat", JString (dateFormat c));
      ("useCustomFormat", JBool (useCustomFormat c)) ].

Definition STORAGE_KEY : string := "metastamp-config".
Definition CONFIG_VERSION : Q := 1.

(** [localStorage]: its items, and whether access is refused (every
    call throws) or the quota is used up ([setItem] throws). *)
Record Storage : Type := mkStorage {
  items : gmap string string;
  accessRefused : bool;
  quotaExceeded : bool
}.

Definition getItem (key : string) (st : Storage) : Outcome (option string) :=
  if accessRefused st then Throws else Returns (items st !! key).

Definition setItem (key value : string) (st : Storage) : Outcome Storage :=
  if accessRefused st || quotaExceeded st then Throws
  else Returns (mkStorage (<[key := value]> (items st))
                          (accessRefused st) (quotaExceeded st)).

Definition removeItem (key : string) (st : Storage) : Outcome Storage :=
  if accessRefused st then Throws
  else Returns (mkStorage (delete key (items st))
                          (accessRefused st) (quotaExceeded st)).

(** [value.key] for a key that is neither "length" nor an index, as
    "version" and "config" are: reading it off [null] throws, an object
    gives the field or [undefined], every other value gives
    [undefined]. *)
Definition getNamed (value : Json) (key : string) : Outcome (option Json) :=
  match value with
  | JNull => Throws
  | JObject fields => Returns (fields !! key)
  | JBool _ | JNumber _ | JString _ | JArray _ => Returns None
  end.

(** [version !== CONFIG_VERSION]. *)
Definition differsFromVersion (version : option Json) : bool :=
  match version with
  | Some (JNumber n) => negb (Qeq_bool n CONFIG_VERSION)
  | _ => true
  end.

Fixpoint indexedFrom {A} (i : nat) (l : list A) : list (string * A) :=
  match l with
  | [] => []
  | x :: rest => (nat_toString i, x) :: indexedFrom (S i) rest
  end.

Fixpoint charsOf (s : string) : list Json :=
  match s with
  | EmptyString => []
  | String c s' => JString (String c EmptyString) :: charsOf s'
  end.

(** The own enumerable properties [{ ...value }] copies: the fields of
    an object, the elements of an array and the characters of a string
    under their indices, nothing for [undefined], [null], numbers and
    booleans. *)
Definition spread (value : option Json) : gmap string Json :=
  match value with
  | Some (JObject fields) => fields
  | Some (JArray elements) => list_to_map (indexedFrom 0 elements)
  | Some (JString s) => list_to_map (indexedFrom 0 (charsOf s))
  | Some JNull | Some (JBool _) | Some (JNumber _) | None => ∅
  end.

(** [{ ...DEFAULT_CONFIG, ...config }]: the later spread wins. *)
Definition mergeWithDefaults (config : option Json) : gmap string Json :=
  spread config ∪ configObject DEFAULT_CONFIG.

Definition migrateConfig (stored : Json) : Outcome (gmap string Json) :=
  match getNamed stored "config" with
  | Returns config => Returns (mergeWithDefaults config)
  | Throws => Throws
  end.

(** The pending timer of [debouncedSaveConfig]: the configuration it
    will save when it fires. *)
Definition SaveTimeout : Type := option (gmap string Json).

Section PreferenceStore.

Variable JSON_parse : string -> Outcome Json.
Variable JSON_stringify : Json -> string.

(** [inBrowser] is false when [typeof window === "undefined"]. *)
Definition loadConfig (inBrowser : bool) (storage : Storage)
    : gmap string Json :=
  let defaults := configObject DEFAULT_CONFIG in
  if negb inBrowser then defaults
  else
    match getItem STORAGE_KEY storage with
    | Throws => defaults
    | Returns None => defaults
    | Returns (Some stored) =>
        if String.eqb stored "" then defaults
        else
          match JSON_parse stored with
          | Throws => defaults
          | Returns parsed =>
              match getNamed parsed "version" with
              | Throws => defaults
              | Returns version =>
                  if differsFromVersion version then
                    match migrateConfig parsed with
                    | Returns config => config
                    | Throws => defaults
                    end
                  else
                    match getNamed parsed "config" with
                    | Returns config => mergeWithDefaults config
                    | Throws => defaults
                    end
              end
          end
    end.

Definition storedForm (config : gmap string Json) : Json :=
  JObject (<["version" := JNumber CONFIG_VERSION]>
             (<["config" := JObject config]> ∅)).

Definition saveConfig (inBrowser : bool) (config : gmap string Json)
    (storage : Storage) : Storage :=
  if negb inBrowser then storage
  else
    match setItem STORAGE_KEY (JSON_stringify (storedForm config)) storage with
    | Returns storage' => storage'
    | Throws => storage
    end.

Definition clearConfig (inBrowser : bool) (storage : Storage) : Storage :=
  if negb inBrowser then storage
  else
    match removeItem STORAGE_KEY storage with
    | Returns storage' => storage'
    | Throws => storage
    end.

(** [debouncedSaveConfig(config)]: a pending timer is cancelled and a
    new one is set. *)
Definition debouncedSaveConfig (config : gmap string Json)
    (saveTimeout : SaveTimeout) : SaveTimeout :=
  Some config.

(** The timer goes off: the configuration it was set with is saved and
    [saveTimeout] becomes [null]. *)
Definition saveTimerFires (inBrowser : bool) (saveTimeout : SaveTimeout)
    (storage : Storage) : SaveTimeout * Storage :=
  match saveTimeout with
  | Some config => (None, saveConfig inBrowser config storage)
  | None => (None, storage)
  end.

End PreferenceStore.

(* ********************************************************************* *)
(** * Part II. Notions of the specification                                *)
(* ********************************************************************* *)

(** ** Substitution of one token *)

(** [pat] occurs in [s] with [pre] before it and [post] after it. *)
Definition occurs_at (pat s pre post : string) : Prop :=
  s = pre +:+ pat +:+ post.

Definition occurs (pat s : string) : Prop :=
  exists pre post, occurs_at pat s pre post.

(** The occurrence after [pre] is the leftmost one. *)
Definition leftmost_at (pat s pre post : string) : Prop :=
  occurs_at pat s pre post /\
  forall pre' post', occurs_at pat s pre' post' ->
                     String.length pre <= String.length pre'.

(** One substitution step as the specification words it: at most one
    occurrence, the leftmost, is swapped for [rep]; everything before
    and after it stays as it is. *)
Inductive substituted_once (pat rep s : string) : string -> Prop :=
| subst_absent :
    ~ occurs pat s -> substituted_once pat rep s s
| subst_leftmost pre post :
    leftmost_at pat s pre post ->
    substituted_once pat rep s (pre +:+ rep +:+ post).

(** A format string that holds none of the ten tokens. *)
Definition token_free (format : string) : Prop :=
  forall tok, In tok TOKENS -> ~ occurs tok format.

(** Decision procedure for [occurs], used to run [token_free] on
    concrete strings. *)
Fixpoint contains (pat s : string) : bool :=
  match strip_prefix pat s with
  | Some _ => true
  | None =>
      match s with
      | EmptyString => false
      | String _ s' => contains pat s'
      end
  end.

(** The letters the tokens are made of, and text that holds none of
    them. *)
Definition token_letter (c : ascii) : bool :=
  existsb (Ascii.eqb c) ["Y"; "M"; "D"; "H"; "h"; "m"; "s"; "A"]%char.

Fixpoint literal_text (s : string) : bool :=
  match s with
  | EmptyString => true
  | String c s' => negb (token_letter c) && literal_text s'
  end.

(** The claim of a format holding one token twice, as the specification
    words it: the first occurrence is rendered, the second is left as
    literal text. *)
Definition second_occurrence_literal (d : JsDate) (tok val : string) : Prop :=
  formatDate d (tok +:+ " " +:+ tok) = val +:+ " " +:+ tok.

(** ** Metadata resolution *)

(** The three fields, highest priority first. *)
Definition PRIORITY : list string :=
  [ "DateTimeOriginal"; "CreateDate"; "ModifyDate" ].

(** Resolution as the specification words it: the first field that is
    present wins. *)
Definition first_present (obj : gmap string JsValue) : option JsValue :=
  head (omap (fun key => obj !! key) PRIORITY).

Definition resolve_first_present
    (parsed : Outcome ExifData) (now : TimeValue) : MetadataResult :=
  match parsed with
  | Returns (Some obj) =>
      match first_present obj with
      | Some v => mkMetadata (Some (newDate v)) false
      | None => mkMetadata (Some now) true
      end
  | Returns None | Throws => mkMetadata (Some now) true
  end.

(** Resolution with the guard the code has: the first field that is
    present with a truthy value wins. *)
Definition usable (obj : gmap string JsValue) (key : string) : option JsValue :=
  match obj !! key with
  | Some v => if truthy v then Some v else None
  | None => None
  end.

Definition first_usable (obj : gmap string JsValue) : option JsValue :=
  head (omap (usable obj) PRIORITY).

Definition resolve_first_usable
    (parsed : Outcome ExifData) (now : TimeValue) : MetadataResult :=
  match parsed with
  | Returns (Some obj) =>
      match first_usable obj with
      | Some v => mkMetadata (Some (newDate v)) false
      | None => mkMetadata (Some now) true
      end
  | Returns None | Throws => mkMetadata (Some now) true
  end.

(** Metadata in which the capture time is present but blank, next to a
    real creation time (1 June 2023, 12:00 UTC). *)
Definition exif_blank_original : gmap string JsValue :=
  <["DateTimeOriginal" := VString ""]>
    (<["CreateDate" := VDate (TimeMs 1685620800000)]> ∅).

(** Metadata whose capture time is the number 0 and whose creation time
    is the empty string; only the modification time is usable. *)
Definition exif_falsy_fields : gmap string JsValue :=
  <["DateTimeOriginal" := VNumber 0]>
    (<["CreateDate" := VString ""]>
      (<["ModifyDate" := VDate (TimeMs 1685620800000)]> ∅)).

(** ** Overlay placement and layering *)

(** The clamp of [x] between [lo] and [hi] in which the lower bound wins
    when the bounds cross. *)
Definition clamp_lower_wins (lo hi x : Q) : Q :=
  if Qlt_le_dec hi lo then lo
  else if Qlt_le_dec x lo then lo
  else if Qlt_le_dec hi x then hi
  else x.

Definition rightAligned (p : Position) : bool :=
  match p with topRight | bottomRight => true | topLeft | bottomLeft => false end.

Definition bottomAligned (p : Position) : bool :=
  match p with bottomLeft | bottomRight => true | topLeft | topRight => false end.

(** The font the compositor measures and draws with. *)
Definition overlayFont (config : ImageConfig) (img : Image) : Font :=
  mkFont "bold" (relativeFontSize config img)
         [fontFamily config; "system-ui"; "sans-serif"].

(** The anchor as the specification words it. *)
Definition anchorX (config : ImageConfig) (img : Image) (textWidth : Q) : Q :=
  if rightAligned (position config)
  then (Q_of_nat (imgWidth img) - textWidth - offsetX config)%Q
  else offsetX config.

Definition anchorY (config : ImageConfig) (img : Image) : Q :=
  if bottomAligned (position config)
  then (Q_of_nat (imgHeight img) - offsetY config)%Q
  else (relativeFontSize config img + offsetY config)%Q.

(** Where a call draws text, if it draws text. *)
Definition textAnchor (call : DrawCall) : option (string * Q * Q) :=
  match call with
  | DrawImage _ _ => None
  | StrokeText text x y _ | FillText text x y _ => Some (text, x, y)
  end.

(** A colour that paints nothing. *)
Definition transparent (colour : string) : Prop :=
  colour = "transparent" \/ colour = "rgba(0, 0, 0, 0)".

(** Shadow parameters "reset to neutral" as the specification words it:
    zero blur, zero offsets, transparent colour. *)
Definition shadow_neutral (st : Context2D) : Prop :=
  (shadowBlur st == 0)%Q /\ (shadowOffsetX st == 0)%Q /\
  (shadowOffsetY st == 0)%Q /\ transparent (shadowColor st).

(** The canvas paints a shadow only when the blur or one of the offsets
    is not zero (and the shadow colour is not fully transparent). *)
Definition shadow_geometry_zero (st : Context2D) : Prop :=
  shadowBlur st = 0%Q /\ shadowOffsetX st = 0%Q /\ shadowOffsetY st = 0%Q.

(** The shadow parameters of the style configuration are in force. *)
Definition shadow_configured (config : ImageConfig) (st : Context2D) : Prop :=
  shadowBlur st = dropShadowBlur config /\
  shadowOffsetX st = dropShadowOffsetX config /\
  shadowOffsetY st = dropShadowOffsetY config /\
  shadowColor st = dropShadowColor config.

(** The shadow parameters are those of a new context. *)
Definition shadow_untouched (st : Context2D) : Prop :=
  shadowBlur st = shadowBlur fresh_context /\
  shadowOffsetX st = shadowOffsetX fresh_context /\
  shadowOffsetY st = shadowOffsetY fresh_context /\
  shadowColor st = shadowColor fresh_context.

(** ** Sample inputs *)

(** A text measure that gives every character ten pixels. *)
Definition measure_ten_per_char (f : Font) (text : string) : Q :=
  Q_of_nat (10 * String.length text).

(** The default style with the drop shadow switched on. *)
Definition shadow_config : ImageConfig :=
  mkConfig (fontSize DEFAULT_CONFIG) (fontFamily DEFAULT_CONFIG)
           (fontColor DEFAULT_CONFIG) (strokeColor DEFAULT_CONFIG)
           (strokeWidth DEFAULT_CONFIG) (position DEFAULT_CONFIG)
           (offsetX DEFAULT_CONFIG) (offsetY DEFAULT_CONFIG)
           true (dropShadowBlur DEFAULT_CONFIG)
           (dropShadowOffsetX DEFAULT_CONFIG) (dropShadowOffsetY DEFAULT_CONFIG)
           (dropShadowColor DEFAULT_CONFIG)
           (dateFormatPreset DEFAULT_CONFIG) (timeFormatPreset DEFAULT_CONFIG)
           (dateFormat DEFAULT_CONFIG) (useCustomFormat DEFAULT_CONFIG).

(** The default style with another requested font size. *)
Definition config_with_fontSize (size : Q) : ImageConfig :=
  mkConfig size (fontFamily DEFAULT_CONFIG)
           (fontColor DEFAULT_CONFIG) (strokeColor DEFAULT_CONFIG)
           (strokeWidth DEFAULT_CONFIG) (position DEFAULT_CONFIG)
           (offsetX DEFAULT_CONFIG) (offsetY DEFAULT_CONFIG)
           (dropShadowEnabled DEFAULT_CONFIG) (dropShadowBlur DEFAULT_CONFIG)
           (dropShadowOffsetX DEFAULT_CONFIG) (dropShadowOffsetY DEFAULT_CONFIG)
           (dropShadowColor DEFAULT_CONFIG)
           (dateFormatPreset DEFAULT_CONFIG) (timeFormatPreset DEFAULT_CONFIG)
           (dateFormat DEFAULT_CONFIG) (useCustomFormat DEFAULT_CONFIG).

(** ** Work items of a batch *)

Section OrchestratorNotions.

Variable localTime : TimeValue -> JsDate.
Variable measureText : Font -> string -> Q.
Variable getContext : Image -> bool.
Variable encodes : Image -> bool.

(** A file the pipeline can carry through: it decodes, a drawing context
    is available for it and the canvas encodes. *)
Definition processable (file : File) : bool :=
  match decoded file with
  | Some img => getContext img && encodes img
  | None => false
  end.

(** The terminal status a file earns on its own. *)
Definition terminalStatus (file : File) : Status :=
  if processable file then done else error.

(** The record of one work item once its file has gone through the
    pipeline in world [w]. *)
Definition settle (config : ImageConfig) (file : File)
    (pending : ProcessedImage) (w : World) : ProcessedImage * World :=
  let '(outcome, w) :=
    processImage localTime measureText getContext encodes file config w in
  (match outcome with
   | Returns result => markDone (id pending) result pending
   | Throws => markError (id pending) pending
   end, w).

(** The records of a work list once every file has gone through, in
    order, starting in world [w]. *)
Fixpoint settleAll (config : ImageConfig)
    (work : list (File * ProcessedImage)) (w : World) : list ProcessedImage :=
  match work with
  | [] => []
  | (file, pending) :: rest =>
      let '(settled, w) := settle config file pending w in
      settled :: settleAll config rest w
  end.

Variable drawId : nat -> string.

(** The state of a [handleFiles] run once the first [k] files of the
    batch have settled. *)
Definition settledPrefix (k : nat) (files : list File) (config : ImageConfig)
    (st : AppState) : AppState :=
  let '(work, st) := submit drawId files st in
  processLoop localTime measureText getContext encodes config (take k work) st.

End OrchestratorNotions.

Definition terminal (s : Status) : Prop := s = done \/ s = error.

(** ** Sample batch *)

Definition sample_localTime (t : TimeValue) : JsDate := mkDate 2024 0 1 0 30 0.
Definition sample_getContext (img : Image) : bool := true.
Definition sample_encodes (img : Image) : bool := true.
Definition sample_drawId (n : nat) : string := "1700000000000-" +:+ nat_toString n.

Definition valid_photo (fileName : string) : File :=
  mkFile fileName "image/jpeg" (Returns None) (Some (mkImage 1000 1000)).

Definition corrupt_photo (fileName : string) : File :=
  mkFile fileName "image/jpeg" Throws None.

(** Five submitted files, the third of which does not decode. *)
Definition sample_batch : list File :=
  [ valid_photo "a.jpg"; valid_photo "b.jpg"; corrupt_photo "c.jpg";
    valid_photo "d.jpg"; valid_photo "e.jpg" ].

(** An id source that hands out the same id every time. *)
Definition constant_drawId (n : nat) : string := "1700000000000-k3j9x0q2a".

Definition empty_world : World := mkWorld (TimeMs 1700000000000) ∅ 0 0.

Definition empty_app : AppState := mkApp [] false false empty_world.

(** ** Download names and the archive *)

(** A file name that ends in an extension: a dot followed by at least
    one character, none of them a dot or a slash. *)
Definition ends_in_extension (s base ext : string) : Prop :=
  s = base +:+ "." +:+ ext /\ ext <> "" /\ all_extension_chars ext = true.

(** The archive entry a name ends up with: the blob of the last image
    filed under that name, or what the archive held before. *)
Fixpoint entryFor (n : string) (doneImages : list ProcessedImage) (w : World)
    (before : option UrlTarget) : option UrlTarget :=
  match doneImages with
  | [] => before
  | image :: rest =>
      entryFor n rest w
        (if String.eqb (downloadName (originalName image)) n
         then objectUrls w !! processedUrl image else before)
  end.

(** Records as they stand after processing, for sample runs. *)
Definition done_record (i u n : string) : ProcessedImage :=
  mkProcessed i n u "2024-01-01 00:30:00" true done.

Definition sample_urls : World :=
  mkWorld (TimeMs 1700000000000)
          (<["blob:1" := EncodedCanvas (mkCanvas fresh_context [])]>
             (<["blob:3" := EncodedCanvas (mkCanvas fresh_context [DrawImage 0 0])]> ∅))
          4 2.

(** ** The settings panel *)

(** Outside custom mode the format string is the one the two presets
    combine to. *)
Definition preset_consistent (c : ImageConfig) : Prop :=
  useCustomFormat c = false ->
  dateFormat c = combineFormats (dateFormatPreset c) (timeFormatPreset c).

(** The updates the controls of the panel send for a configuration: the
    format text box exists in custom mode only, and the custom switch
    goes through [handleCustomFormatToggle]. *)
Definition sent_by_panel (c : ImageConfig) (e : ConfigEntry) : Prop :=
  match e with
  | useCustomFormat_is _ => False
  | dateFormat_is _ => useCustomFormat c = true
  | _ => True
  end.

(** ** Preview against output *)

(** Two context states cast the same shadow: same blur and offsets, and
    the same colour or two colours that paint nothing. *)
Definition same_shadow (a b : Context2D) : Prop :=
  shadowBlur a = shadowBlur b /\
  shadowOffsetX a = shadowOffsetX b /\
  shadowOffsetY a = shadowOffsetY b /\
  (shadowColor a = shadowColor b \/
   (transparent (shadowColor a) /\ transparent (shadowColor b))).

(** Two drawing calls paint the same thing: the same call at the same
    place, under states that agree on every field the call reads. *)
Definition same_paint (a b : DrawCall) : Prop :=
  match a, b with
  | DrawImage x y, DrawImage x' y' => x = x' /\ y = y'
  | StrokeText t x y s, StrokeText t' x' y' s' =>
      t = t' /\ x = x' /\ y = y' /\
      font s = font s' /\ textBaseline s = textBaseline s' /\
      strokeStyle s = strokeStyle s' /\ lineWidth s = lineWidth s' /\
      lineJoin s = lineJoin s' /\ same_shadow s s'
  | FillText t x y s, FillText t' x' y' s' =>
      t = t' /\ x = x' /\ y = y' /\
      font s = font s' /\ textBaseline s = textBaseline s' /\
      fillStyle s = fillStyle s' /\ same_shadow s s'
  | _, _ => False
  end.

(** ** Preference store *)

(** The serializer writes a non-empty text for [value] that the parser
    reads back as [value]. *)
Definition reads_back (JSON_parse : string -> Outcome Json)
    (JSON_stringify : Json -> string) (value : Json) : Prop :=
  JSON_stringify value <> "" /\
  JSON_parse (JSON_stringify value) = Returns value.

Definition usable_storage (storage : Storage) : Prop :=
  accessRefused storage = false /\ quotaExceeded storage = false.

(** The stored text cannot be used: nothing is stored, the text is
    empty, it does not parse, or it parses to [null]. *)
Definition unusable_text (JSON_parse : string -> Outcome Json)
    (stored : option string) : Prop :=
  match stored with
  | None => True
  | Some text =>
      text = "" \/ JSON_parse text = Throws \/ JSON_parse text = Returns JNull
  end.

Definition large_font_config : ImageConfig :=
  config_with_fontSize 48.

Definition sample_stringify (value : Json) : string := "{stored}".
Definition sample_parse (text : string) : Outcome Json :=
  Returns (storedForm (configObject large_font_config)).
Definition empty_storage : Storage := mkStorage ∅ false false.
Definition refused_storage : Storage := mkStorage ∅ true false.

(** ** The table of object URLs *)

(** Every live URL was minted by [createObjectURL]. *)
Definition urls_minted (w : World) : Prop :=
  forall u, is_Some (objectUrls w !! u) ->
    exists k, k < urlCounter w /\ u = "blob:" +:+ nat_toString k.

Definition isSource (target : UrlTarget) : bool :=
  match target with
  | SourceFile _ => true
  | EncodedCanvas _ => false
  end.

(** The live URLs that point to a submitted file. *)
Definition sourceUrls (w : World) : gmap string UrlTarget :=
  filter (fun entry => isSource entry.2 = true) (objectUrls w).

(** The output URL of a record is live and serves a canvas on which the
    record's own timestamp was stamped. *)
Definition serves_stamp (measureText : Font -> string -> Q) (w : World)
    (img : ProcessedImage) : Prop :=
  exists config image,
    objectUrls w !! processedUrl img
    = Some (EncodedCanvas (drawOverlay measureText config image (timestamp img))).

(** A record either has no output yet and is not done, or its output is
    served. *)
Definition record_kept (measureText : Font -> string -> Q) (w : World)
    (img : ProcessedImage) : Prop :=
  (processedUrl img = "" /\ status img <> done) \/ serves_stamp measureText w img.

Definition outputs_kept (measureText : Font -> string -> Q) (st : AppState)
    : Prop :=
  urls_minted (world st) /\
  Forall (record_kept measureText (world st)) (images st).

Section BatchNotions.

Variable localTime : TimeValue -> JsDate.
Variable measureText : Font -> string -> Q.
Variable getContext : Image -> bool.
Variable encodes : Image -> bool.

(** The browser once every file of a work list has gone through, in
    order, starting in world [w]. *)
Fixpoint worldAfter (config : ImageConfig)
    (work : list (File * ProcessedImage)) (w : World) : World :=
  match work with
  | [] => w
  | (file, _) :: rest =>
      worldAfter config rest
        (snd (processImage localTime measureText getContext encodes
                file config w))
  end.

(** The instant a file is stamped with, and the text of the stamp. *)
Definition stampInstant (file : File) (now : TimeValue) : TimeValue :=
  match date (extractImageMetadata (exif file) now) with
  | Some d => d
  | None => now
  end.

Definition stampText (config : ImageConfig) (file : File) (now : TimeValue)
    : string :=
  formatDate (localTime (stampInstant file now)) (dateFormat config).

(** What the record of [file] has to be at the end of the run of a
    batch submitted at [now], in the final browser [w]. *)
Definition record_of_file (config : ImageConfig) (now : TimeValue)
    (w : World) (file : File) (r : ProcessedImage) : Prop :=
  originalName r = name file /\
  match decoded file with
  | Some image =>
      if getContext image && encodes image then
        status r = done /\
        timestamp r = stampText config file now /\
        usedFallback_ r = usedFallback (extractImageMetadata (exif file) now) /\
        objectUrls w !! processedUrl r
        = Some (EncodedCanvas
                  (drawOverlay measureText config image
                     (stampText config file now)))
      else
        status r = error /\ processedUrl r = "" /\ timestamp r = ""
  | None => status r = error /\ processedUrl r = "" /\ timestamp r = ""
  end.

End BatchNotions.

(** ** Formats made of numeric tokens and plain text *)

(** The tokens other than the month names. *)
Inductive Token : Type := tYYYY | tMM | tDD | tHH | thh | tmm | tss | tA.

Definition token_text (t : Token) : string :=
  match t with
  | tYYYY => "YYYY" | tMM => "MM" | tDD => "DD" | tHH => "HH"
  | thh => "hh" | tmm => "mm" | tss => "ss" | tA => "A"
  end.

(** What a token stands for. *)
Definition token_value (d : JsDate) (t : Token) : string :=
  match t with
  | tYYYY => Z_toString (getFullYear d)
  | tMM => pad (getMonth d + 1)
  | tDD => pad (getDate d)
  | tHH => pad (getHours d)
  | thh => pad (hours12 d)
  | tmm => pad (getMinutes d)
  | tss => pad (getSeconds d)
  | tA => ampm d
  end.

Definition Token_eqb (a b : Token) : bool :=
  match a, b with
  | tYYYY, tYYYY | tMM, tMM | tDD, tDD | tHH, tHH
  | thh, thh | tmm, tmm | tss, tss | tA, tA => true
  | _, _ => false
  end.

(** A format read as a sequence of tokens and stretches of text. *)
Inductive Piece : Type :=
| Lit (text : string)
| Tok (t : Token).

Fixpoint flat (ps : list Piece) : string :=
  match ps with
  | [] => ""
  | Lit text :: rest => text +:+ flat rest
  | Tok t :: rest => token_text t +:+ flat rest
  end.

(** The intended rendering: every token swapped for its value, the
    text in between kept. *)
Fixpoint render (d : JsDate) (ps : list Piece) : string :=
  match ps with
  | [] => ""
  | Lit text :: rest => text +:+ render d rest
  | Tok t :: rest => token_value d t +:+ render d rest
  end.

Fixpoint has_token (t : Token) (ps : list Piece) : bool :=
  match ps with
  | [] => false
  | Lit _ :: rest => has_token t rest
  | Tok t' :: rest => Token_eqb t t' || has_token t rest
  end.

(** No token twice, and no token letter in the text between tokens. *)
Fixpoint simple_format (ps : list Piece) : bool :=
  match ps with
  | [] => true
  | Lit text :: rest => literal_text text && simple_format rest
  | Tok t :: rest => negb (has_token t rest) && simple_format rest
  end.

(** One substitution step on the pieces: the first piece that is the
    token [t] becomes the text [v]. *)
Fixpoint subst_piece (t : Token) (v : string) (ps : list Piece) : list Piece :=
  match ps with
  | [] => []
  | Lit text :: rest => Lit text :: subst_piece t v rest
  | Tok t' :: rest =>
      if Token_eqb t t' then Lit v :: rest
      else Tok t' :: subst_piece t v rest
  end.

Fixpoint avoids (c : ascii) (s : string) : bool :=
  match s with
  | EmptyString => true
  | String a s' => negb (Ascii.eqb c a) && avoids c s'
  end.

(** The pieces of the default format and of the presets without month
    names. *)
Definition pieces_iso : list Piece :=
  [Tok tYYYY; Lit "-"; Tok tMM; Lit "-"; Tok tDD].
Definition pieces_us : list Piece :=
  [Tok tMM; Lit "/"; Tok tDD; Lit "/"; Tok tYYYY].
Definition pieces_eu : list Piece :=
  [Tok tDD; Lit "/"; Tok tMM; Lit "/"; Tok tYYYY].
Definition pieces_dotted : list Piece :=
  [Tok tDD; Lit "."; Tok tMM; Lit "."; Tok tYYYY].
Definition pieces_24h_seconds : list Piece :=
  [Tok tHH; Lit ":"; Tok tmm; Lit ":"; Tok tss].
Definition pieces_24h : list Piece := [Tok tHH; Lit ":"; Tok tmm].
Definition pieces_12h_seconds : list Piece :=
  [Tok thh; Lit ":"; Tok tmm; Lit ":"; Tok tss; Lit " "; Tok tA].
Definition pieces_12h : list Piece := [Tok thh; Lit ":"; Tok tmm; Lit " "; Tok tA].

(** The eight token steps of [formatDate], in its order, on the
    pieces. *)
Definition substitute_all (d : JsDate) (ps : list Piece) : list Piece :=
  let ps := subst_piece tYYYY (token_value d tYYYY) ps in
  let ps := subst_piece tMM (token_value d tMM) ps in
  let ps := subst_piece tDD (token_value d tDD) ps in
  let ps := subst_piece tHH (token_value d tHH) ps in
  let ps := subst_piece thh (token_value d thh) ps in
  let ps := subst_piece tmm (token_value d tmm) ps in
  let ps := subst_piece tss (token_value d tss) ps in
  subst_piece tA (token_value d tA) ps.

(** The pieces of a date preset joined with a time preset. *)
Definition joined (date_pieces time_pieces : list Piece) : list Piece :=
  match time_pieces with
  | [] => date_pieces
  | _ :: _ => date_pieces ++ Lit " " :: time_pieces
  end.

(** The presets without a month name, each with its pieces. *)
Definition numeric_date_presets : list (string * list Piece) :=
  [ ("YYYY-MM-DD", pieces_iso); ("MM/DD/YYYY", pieces_us);
    ("DD/MM/YYYY", pieces_eu); ("DD.MM.YYYY", pieces_dotted) ].

Definition time_presets : list (string * list Piece) :=
  [ ("HH:mm:ss", pieces_24h_seconds); ("HH:mm", pieces_24h);
    ("hh:mm:ss A", pieces_12h_seconds); ("hh:mm A", pieces_12h);
    ("", []) ].

(** A month name without its first letter. *)
Definition drop_first (s : string) : string :=
  match s with
  | EmptyString => EmptyString
  | String _ rest => rest
  end.

(* ********************************************************************* *)
(** * Part III. Properties                                                 *)
(* ********************************************************************* *)

(* ===================================================================== *)
(** * 6. One [replace] call                                               *)
(* ===================================================================== *)

Section ReplaceFacts.

Implicit Types pat rep s pre post : string.

Lemma append_nil_l s : "" +:+ s = s.
Proof. reflexivity. Qed.

Lemma append_cons c s1 s2 : String c s1 +:+ s2 = String c (s1 +:+ s2).
Proof. reflexivity. Qed.

Lemma strip_prefix_Some p s rest :
  strip_prefix p s = Some rest <-> s = p +:+ rest.
Proof.
  revert s; induction p as [|a p IH]; intros s; simpl;
    rewrite ?append_nil_l, ?append_cons.
  - split; [intros [= ->] | intros ->]; reflexivity.
  - destruct s as [|b s]; [split; discriminate|].
    destruct (Ascii.eqb_spec a b) as [->|Hne].
    + rewrite IH. split; [intros ->; reflexivity | intros [= ->]; reflexivity].
    + split; [discriminate | intros [= E _]; congruence].
Qed.

Lemma strip_prefix_None_head p s post :
  strip_prefix p s = None -> ~ occurs_at p s "" post.
Proof.
  intros Hn Ho. unfold occurs_at in Ho; rewrite append_nil_l in Ho.
  apply strip_prefix_Some in Ho. congruence.
Qed.

Lemma occurs_at_cons pat c s pre post :
  occurs_at pat (String c s) (String c pre) post <-> occurs_at pat s pre post.
Proof.
  unfold occurs_at; rewrite append_cons.
  split; [intros [= ->] | intros ->]; reflexivity.
Qed.

Lemma occurs_at_cons_inv pat c s pre post :
  occurs_at pat (String c s) pre post ->
  pre = "" \/ exists pre', pre = String c pre' /\ occurs_at pat s pre' post.
Proof.
  destruct pre as [|a pre]; [now left|].
  unfold occurs_at; rewrite append_cons. intros [= -> ->]. right; eauto.
Qed.

(** The code's [replace] performs exactly one such step. *)
Lemma replace_substituted_once pat rep s :
  substituted_once pat rep s (replace pat rep s).
Proof.
  induction s as [|c s IH]; simpl.
  - destruct (strip_prefix pat "") as [rest|] eqn:E.
    + apply (subst_leftmost pat rep "" "" rest). split.
      * now apply strip_prefix_Some in E.
      * intros; cbn; lia.
    + apply subst_absent. intros (pre & post & Ho).
      destruct pre; [|discriminate Ho].
      now apply (strip_prefix_None_head _ _ post E).
  - destruct (strip_prefix pat (String c s)) as [rest|] eqn:E.
    + apply (subst_leftmost pat rep (String c s) "" rest). split.
      * now apply strip_prefix_Some in E.
      * intros; cbn; lia.
    + remember (replace pat rep s) as r eqn:Hr.
      destruct IH as [Hno | pre post [Ho Hmin]].
      * apply subst_absent. intros (pre & post & Ho).
        destruct (occurs_at_cons_inv _ _ _ _ _ Ho) as [-> | (pre' & -> & Ho')].
        -- now apply (strip_prefix_None_head _ _ post E).
        -- apply Hno. now exists pre', post.
      * rewrite <- append_cons.
        apply (subst_leftmost pat rep (String c s) (String c pre) post). split.
        -- now apply occurs_at_cons.
        -- intros pre' post' Ho'.
           destruct (occurs_at_cons_inv _ _ _ _ _ Ho') as [-> | (p' & -> & Hp)].
           ++ exfalso. now apply (strip_prefix_None_head _ _ post' E).
           ++ cbn. apply Hmin in Hp. lia.
Qed.

Lemma replace_absent pat rep s : ~ occurs pat s -> replace pat rep s = s.
Proof.
  intros Hno. induction s as [|c s IH]; simpl.
  - destruct (strip_prefix pat "") as [rest|] eqn:E; [|reflexivity].
    exfalso. apply Hno. exists "", rest. now apply strip_prefix_Some in E.
  - destruct (strip_prefix pat (String c s)) as [rest|] eqn:E.
    + exfalso. apply Hno. exists "", rest. now apply strip_prefix_Some in E.
    + f_equal. apply IH. intros (pre & post & Ho). apply Hno.
      exists (String c pre), post. now apply occurs_at_cons.
Qed.

Lemma append_inj_length pre pre' a a' :
  String.length pre = String.length pre' ->
  pre +:+ a = pre' +:+ a' -> pre = pre' /\ a = a'.
Proof.
  revert pre'; induction pre as [|c pre IH]; intros [|c' pre']; cbn;
    try discriminate; rewrite ?append_nil_l, ?append_cons.
  - auto.
  - intros [= Hlen] [= -> Happ]. destruct (IH _ Hlen Happ) as [-> ->]. auto.
Qed.

(** A substitution step has one result only: the relation is the graph
    of [replace]. *)
Lemma substituted_once_functional pat rep s s1 s2 :
  substituted_once pat rep s s1 -> substituted_once pat rep s s2 -> s1 = s2.
Proof.
  intros [Hno1 | pre1 post1 [Ho1 Hmin1]] [Hno2 | pre2 post2 [Ho2 Hmin2]].
  - reflexivity.
  - exfalso. apply Hno1. now exists pre2, post2.
  - exfalso. apply Hno2. now exists pre1, post1.
  - pose proof (Hmin1 _ _ Ho2). pose proof (Hmin2 _ _ Ho1).
    unfold occurs_at in Ho1, Ho2. rewrite Ho1 in Ho2.
    apply append_inj_length in Ho2 as [-> Hrest]; [|lia].
    apply (append_inj_length pat pat) in Hrest as [_ ->]; reflexivity.
Qed.

Lemma substituted_once_iff pat rep s s' :
  substituted_once pat rep s s' <-> s' = replace pat rep s.
Proof.
  split.
  - intros H. apply (substituted_once_functional pat rep s); [exact H|].
    apply replace_substituted_once.
  - intros ->. apply replace_substituted_once.
Qed.

End ReplaceFacts.

(* ===================================================================== *)
(** * 7. The format engine                                                *)
(* ===================================================================== *)

Example formatDate_iso :
  formatDate (mkDate 2024 2 5 9 7 3) "YYYY-MM-DD HH:mm:ss" = "2024-03-05 09:07:03".
Proof. vm_compute. reflexivity. Qed.

Example formatDate_12h :
  formatDate (mkDate 2024 0 1 0 30 0) "hh:mm A" = "12:30 AM".
Proof. vm_compute. reflexivity. Qed.

(** Without a token occurrence every one of the ten [replace] calls is
    the identity, whatever the timestamp. *)
Lemma formatDate_token_free (d : JsDate) (format : string) :
  token_free format -> formatDate d format = format.
Proof.
  intros Hfree. unfold formatDate. cbv zeta.
  repeat match goal with
         | |- context [replace ?tok ?val format] =>
             rewrite (replace_absent tok val format)
               by (apply Hfree; unfold TOKENS; simpl; tauto)
         end.
  reflexivity.
Qed.

Lemma contains_false pat s : contains pat s = false -> ~ occurs pat s.
Proof.
  induction s as [|c s IH]; simpl.
  - destruct (strip_prefix pat "") eqn:E; [discriminate|].
    intros _ (pre & post & Ho). destruct pre; [|discriminate Ho].
    now apply (strip_prefix_None_head _ _ post E).
  - destruct (strip_prefix pat (String c s)) eqn:E; [discriminate|].
    intros Hc (pre & post & Ho).
    destruct (occurs_at_cons_inv _ _ _ _ _ Ho) as [-> | (pre' & -> & Ho')].
    + now apply (strip_prefix_None_head _ _ post E).
    + apply (IH Hc). now exists pre', post.
Qed.

Lemma token_free_by_scan format :
  forallb (fun tok => negb (contains tok format)) TOKENS = true ->
  token_free format.
Proof.
  intros H tok Hin. rewrite forallb_forall in H.
  apply contains_false. specialize (H tok Hin).
  now destruct (contains tok format).
Qed.

Example formatDate_hello_world (d : JsDate) :
  formatDate d "hello world" = "hello world".
Proof. apply formatDate_token_free, token_free_by_scan. reflexivity. Qed.

(** A pattern that starts with a token letter finds no match that
    starts inside text free of token letters. *)
Lemma replace_skips_literal (c : ascii) (tok' val lit s : string) :
  token_letter c = true -> literal_text lit = true ->
  replace (String c tok') val (lit +:+ s)
  = lit +:+ replace (String c tok') val s.
Proof.
  intros Hc. induction lit as [|a lit IH]; intros Hlit.
  - reflexivity.
  - change (negb (token_letter a) && literal_text lit = true) in Hlit.
    apply andb_prop in Hlit as [Ha Hlit].
    rewrite append_cons. cbn [replace strip_prefix].
    destruct (Ascii.eqb_spec c a) as [-> | Hne].
    + rewrite Hc in Ha. discriminate Ha.
    + now rewrite (IH Hlit).
Qed.

(** Leading text without token letters is passed through verbatim,
    whatever follows it and whatever the timestamp. *)
Lemma formatDate_literal_prefix (d : JsDate) (lit format : string) :
  literal_text lit = true ->
  formatDate d (lit +:+ format) = lit +:+ formatDate d format.
Proof.
  intros Hlit. unfold formatDate. cbv zeta.
  rewrite !replace_skips_literal by (reflexivity || exact Hlit).
  reflexivity.
Qed.

(** The [hh] token prints 12 at midnight and at noon. *)
Lemma formatDate_hh_noon_midnight (d : JsDate) :
  getHours d = 0 \/ getHours d = 12 -> formatDate d "hh" = "12".
Proof.
  destruct d as [y mo da h mi se]; simpl.
  intros [-> | ->]; reflexivity.
Qed.

(** The [A] token, alone, prints AM before noon and PM from noon on. *)
Lemma formatDate_A_alone (d : JsDate) :
  formatDate d "A" = if Nat.ltb (getHours d) 12 then "AM" else "PM".
Proof.
  destruct d as [y mo da h mi se]. unfold formatDate, ampm; simpl getHours.
  destruct (Nat.ltb_spec h 12) as [Hlt | Hge].
  - replace (Nat.leb 12 h) with false by (symmetry; apply Nat.leb_gt; lia).
    reflexivity.
  - replace (Nat.leb 12 h) with true by (symmetry; apply Nat.leb_le; lia).
    reflexivity.
Qed.

Example second_YYYY_literal :
  second_occurrence_literal (mkDate 2024 2 5 9 7 3) "YYYY" "2024".
Proof. reflexivity. Qed.

Example second_DD_literal :
  second_occurrence_literal (mkDate 2024 2 5 9 7 3) "DD" "05".
Proof. reflexivity. Qed.



(** C2, the program at the failing input: in December the literal "D"
    in front of [MMMM] is not passed through.  The [MMMM] step writes
    "December" next to it and the [DD] step, run afterwards on the
    already substituted text, takes "DD" for its token. *)
Theorem formatDate_literal_D_consumed :
  formatDate (mkDate 2024 11 5 9 7 3) "DMMMM" = "05ecember".
Proof. reflexivity. Qed.

(** C3, the program at the failing input: the long date preset joined
    with the 12-hour preset, on 5 April 2024 at 09:07:03.  The [A] step
    runs last and finds its first "A" in the month name the [MMMM] step
    wrote, so the month reads "AMpril" and the [A] token itself stays
    unrendered. *)
Theorem formatDate_april_long_preset :
  formatDate (mkDate 2024 3 5 9 7 3) (combineFormats "MMMM DD, YYYY" "hh:mm A")
  = "AMpril 05, 2024 09:07 A".
Proof. reflexivity. Qed.

(* ===================================================================== *)
(** * 8. The metadata resolver                                            *)
(* ===================================================================== *)

Section ResolverFacts.

Implicit Types (obj : gmap string JsValue) (key : string) (v : JsValue).

Lemma optional_get_usable obj key :
  match usable obj key with
  | Some v => optional_get (Some obj) key = v /\ truthy v = true
  | None => truthy (optional_get (Some obj) key) = false
  end.
Proof.
  unfold usable, optional_get. destruct (obj !! key) as [v|]; simpl.
  - destruct (truthy v) eqn:E; auto.
  - reflexivity.
Qed.

Lemma extract_is_first_usable parsed now :
  extractImageMetadata parsed now = resolve_first_usable parsed now.
Proof.
  destruct parsed as [[obj|]|]; try reflexivity.
  unfold extractImageMetadata, resolve_first_usable, first_usable, PRIORITY.
  simpl omap.
  pose proof (optional_get_usable obj "DateTimeOriginal") as H1.
  pose proof (optional_get_usable obj "CreateDate") as H2.
  pose proof (optional_get_usable obj "ModifyDate") as H3.
  destruct (usable obj "DateTimeOriginal") as [v1|].
  { destruct H1 as [-> ->]. reflexivity. }
  rewrite H1.
  destruct (usable obj "CreateDate") as [v2|].
  { destruct H2 as [-> ->]. reflexivity. }
  rewrite H2.
  destruct (usable obj "ModifyDate") as [v3|].
  { destruct H3 as [-> ->]. reflexivity. }
  rewrite H3. reflexivity.
Qed.

Lemma usable_delete_falsy obj key v key' :
  obj !! key = Some v -> truthy v = false ->
  usable (delete key obj) key' = usable obj key'.
Proof.
  intros Hv Hf. unfold usable.
  destruct (decide (key = key')) as [<- | Hne].
  - rewrite lookup_delete_eq, Hv, Hf. reflexivity.
  - rewrite lookup_delete_ne by exact Hne. reflexivity.
Qed.

(** When no field carries a falsy value the two readings agree: the
    first field present is the first usable one. *)
Lemma first_usable_first_present obj :
  (forall key v, obj !! key = Some v -> truthy v = true) ->
  first_usable obj = first_present obj.
Proof.
  intros Hall.
  assert (Hsame : forall key, usable obj key = obj !! key).
  { intros key. unfold usable.
    destruct (obj !! key) as [v|] eqn:E; [|reflexivity].
    now rewrite (Hall key v E). }
  unfold first_usable, first_present, PRIORITY; simpl omap.
  now rewrite !Hsame.
Qed.

End ResolverFacts.

(** Metadata with a creation time only resolves to it, without
    fallback; metadata without any of the three fields falls back to the
    clock. *)
Example creation_time_only :
  extractImageMetadata
    (Returns (Some {["CreateDate" := VDate (TimeMs 1685620800000)]})) (TimeMs 0)
  = mkMetadata (Some (TimeMs 1685620800000)) false.
Proof. vm_compute. reflexivity. Qed.

Example no_recognised_field :
  extractImageMetadata (Returns (Some ∅)) (TimeMs 9)
  = mkMetadata (Some (TimeMs 9)) true.
Proof. vm_compute. reflexivity. Qed.






(* ===================================================================== *)
(** * 9. The overlay compositor                                           *)
(* ===================================================================== *)

Section CompositorFacts.

Variable measureText : Font -> string -> Q.

Lemma Qmax_Qmin_clamp (lo hi x : Q) :
  (Qmax (Qmin x hi) lo == clamp_lower_wins lo hi x)%Q.
Proof.
  unfold clamp_lower_wins.
  destruct (Qlt_le_dec hi lo) as [Hcross | Hok].
  - apply Q.max_r. apply Qle_trans with hi; [apply Q.le_min_r | apply Qlt_le_weak, Hcross].
  - destruct (Qlt_le_dec x lo) as [Hlow | Hlo].
    + apply Q.max_r. apply Qle_trans with x; [apply Q.le_min_l | apply Qlt_le_weak, Hlow].
    + destruct (Qlt_le_dec hi x) as [Hhigh | Hhi].
      * rewrite (Q.min_r x hi) by (apply Qlt_le_weak, Hhigh).
        apply Q.max_l. exact Hok.
      * rewrite (Q.min_l x hi) by exact Hhi. apply Q.max_l. exact Hlo.
Qed.

(** C5: the effective font size is [max(min(s, W/10), 24)], that is the
    requested size [s] clamped between 24 and a tenth of the image
    width [W], the lower bound winning when [W/10 < 24]; a request of
    500 on a 240 pixel wide image gives 24. *)
Theorem relativeFontSize_clamp :
  (forall config img,
     relativeFontSize config img
       = Qmax (Qmin (fontSize config) (Q_of_nat (imgWidth img) / 10)) 24 /\
     relativeFontSize config img
       == clamp_lower_wins 24 (Q_of_nat (imgWidth img) / 10) (fontSize config))%Q /\
  (forall config img,
     Q_of_nat (imgWidth img) / 10 < 24 -> relativeFontSize config img == 24)%Q /\
  (relativeFontSize (config_with_fontSize 500) (mkImage 240 180) == 24)%Q.
Proof.
  split; [|split].
  - intros config img. split; [reflexivity | apply Qmax_Qmin_clamp].
  - intros config img Hsmall. unfold relativeFontSize.
    rewrite Qmax_Qmin_clamp. unfold clamp_lower_wins.
    destruct (Qlt_le_dec (Q_of_nat (imgWidth img) / 10) 24) as [_ | Hge];
      [reflexivity | exfalso; exact (Qlt_not_le _ _ Hsmall Hge)].
  - reflexivity.
Qed.

Lemma relativeFontSize_clamp_witness :
  (Q_of_nat (imgWidth (mkImage 100 80)) / 10 < 24)%Q /\
  (relativeFontSize (config_with_fontSize 500) (mkImage 100 80) == 24)%Q.
Proof.
  assert (Hsmall : (Q_of_nat (imgWidth (mkImage 100 80)) / 10 < 24)%Q)
    by reflexivity.
  split; [exact Hsmall|].
  exact (proj1 (proj2 relativeFontSize_clamp)
               (config_with_fontSize 500) (mkImage 100 80) Hsmall).
Defined.

Lemma textPosition_anchor config img textWidth :
  textPosition config img textWidth (relativeFontSize config img)
  = (anchorX config img textWidth, anchorY config img).
Proof.
  unfold textPosition, anchorX, anchorY.
  destruct (position config); reflexivity.
Qed.

(** The calls [drawOverlay] issues, in order, with the context state of
    each text call. *)
Lemma drawOverlay_calls config img text :
  let x := anchorX config img (measureText (overlayFont config img) text) in
  let y := anchorY config img in
  exists fillState : Context2D,
    (* the calls, with or without the stroke pass *)
    (if Qpositive (strokeWidth config) then
       exists strokeState : Context2D,
         calls (drawOverlay measureText config img text)
         = [DrawImage 0 0; StrokeText text x y strokeState;
            FillText text x y fillState] /\
         strokeStyle strokeState = strokeColor config /\
         lineWidth strokeState = strokeWidth config /\
         lineJoin strokeState = "round" /\
         font strokeState = overlayFont config img /\
         (if dropShadowEnabled config
          then shadow_configured config strokeState
          else shadow_untouched strokeState)
     else
       calls (drawOverlay measureText config img text)
       = [DrawImage 0 0; FillText text x y fillState]) /\
    (* the fill pass *)
    fillStyle fillState = fontColor config /\
    font fillState = overlayFont config img /\
    shadow_geometry_zero fillState /\
    shadowColor fillState
    = (if dropShadowEnabled config
       then dropShadowColor config else shadowColor fresh_context).
Proof.
  intros x y. unfold drawOverlay.
  change (mkFont "bold" (relativeFontSize config img)
            [fontFamily config; "system-ui"; "sans-serif"])
    with (overlayFont config img).
  cbn [assign drawImage ctx calls set_font set_textBaseline font].
  rewrite textPosition_anchor. fold x y.
  unfold shadow_geometry_zero, shadow_configured, shadow_untouched.
  destruct (dropShadowEnabled config), (Qpositive (strokeWidth config));
    cbn; eexists; (split; [first [reflexivity | eexists; split; [reflexivity|]]|]);
    cbn; repeat split; reflexivity.
Qed.

(** C6: on a surface of width [W] and height [H], with measured text
    width [tw] and effective font size [f], every text call of the
    compositor is anchored at [x = W - tw - offsetX] for topRight and
    bottomRight, [x = offsetX] for the left positions,
    [y = H - offsetY] for the bottom positions and [y = f + offsetY]
    for the top positions; and the text is drawn.  On a 1000 by 1000
    surface with bottomRight and offsets 20 this gives
    [x = 1000 - tw - 20]. *)
Theorem drawOverlay_anchor :
  (forall config img text,
     let tw := measureText (overlayFont config img) text in
     let x := (if rightAligned (position config)
               then Q_of_nat (imgWidth img) - tw - offsetX config
               else offsetX config)%Q in
     let y := (if bottomAligned (position config)
               then Q_of_nat (imgHeight img) - offsetY config
               else relativeFontSize config img + offsetY config)%Q in
     (forall call, In call (calls (drawOverlay measureText config img text)) ->
        textAnchor call = None \/ textAnchor call = Some (text, x, y)) /\
     (exists st, In (FillText text x y st)
                    (calls (drawOverlay measureText config img text)))) /\
  (forall text,
     exists st,
       In (FillText text
             (1000 - measureText (overlayFont DEFAULT_CONFIG (mkImage 1000 1000)) text
              - 20)%Q
             (1000 - 20)%Q st)
          (calls (drawOverlay measureText DEFAULT_CONFIG (mkImage 1000 1000) text))).
Proof.
  assert (Hgen : forall config img text,
     let x := anchorX config img (measureText (overlayFont config img) text) in
     let y := anchorY config img in
     (forall call, In call (calls (drawOverlay measureText config img text)) ->
        textAnchor call = None \/ textAnchor call = Some (text, x, y)) /\
     (exists st, In (FillText text x y st)
                    (calls (drawOverlay measureText config img text)))).
  { intros config img text x y.
    destruct (drawOverlay_calls config img text) as (fs & Hc & _).
    fold x y in Hc.
    destruct (Qpositive (strokeWidth config)).
    - destruct Hc as (ss & -> & _). split.
      + intros call [<- | [<- | [<- | []]]]; cbn; auto.
      + exists fs. cbn; auto.
    - rewrite Hc. split.
      + intros call [<- | [<- | []]]; cbn; auto.
      + exists fs. cbn; auto. }
  split.
  - intros config img text. exact (Hgen config img text).
  - intros text. exact (proj2 (Hgen DEFAULT_CONFIG (mkImage 1000 1000) text)).
Qed.

(** C7, counterexample: with the drop shadow switched on, the shadow
    parameters in force at the fill pass are not the neutral ones.  Blur
    and offsets are zero, but the shadow colour is still the configured
    "rgba(0, 0, 0, 0.5)", not a transparent one: the code resets the
    three numbers only. *)
Lemma fill_pass_keeps_shadow_colour :
  exists strokeState fillState : Context2D,
    calls (drawOverlay measure_ten_per_char shadow_config (mkImage 1000 1000) "2024")
    = [DrawImage 0 0;
       StrokeText "2024" (1000 - 40 - 20)%Q (1000 - 20)%Q strokeState;
       FillText "2024" (1000 - 40 - 20)%Q (1000 - 20)%Q fillState] /\
    shadowColor fillState = "rgba(0, 0, 0, 0.5)" /\
    ~ shadow_neutral fillState.
Proof.
  do 2 eexists. split; [reflexivity|]. split; [reflexivity|].
  intros (_ & _ & _ & [H | H]); discriminate H.
Qed.

(** C7, amended: the compositor draws the image, then (only when
    [strokeWidth > 0]) strokes the text at the anchor with line width
    [strokeWidth], round joins and [strokeColor], then fills the text at
    the same anchor in [fontColor], so the fill lies on top.  When the
    drop shadow is enabled its blur, offsets and colour are in force for
    the stroke pass; right after the stroke and before the fill pass the
    shadow blur and both shadow offsets are set to zero, so the fill
    casts no shadow, while the shadow colour is left as it was. *)
Theorem drawOverlay_layers (config : ImageConfig) (img : Image) (text : string) :
  exists (x y : Q) (fillState : Context2D),
    fillStyle fillState = fontColor config /\
    shadow_geometry_zero fillState /\
    if Qpositive (strokeWidth config) then
      exists strokeState : Context2D,
        calls (drawOverlay measureText config img text)
        = [DrawImage 0 0; StrokeText text x y strokeState;
           FillText text x y fillState] /\
        strokeStyle strokeState = strokeColor config /\
        lineWidth strokeState = strokeWidth config /\
        lineJoin strokeState = "round" /\
        (if dropShadowEnabled config
         then shadow_configured config strokeState
         else shadow_untouched strokeState) /\
        shadowColor fillState = shadowColor strokeState
    else
      calls (drawOverlay measureText config img text)
      = [DrawImage 0 0; FillText text x y fillState].
Proof.
  destruct (drawOverlay_calls config img text)
    as (fs & Hc & Hfill & _ & Hzero & Hcol).
  eexists _, _, fs. split; [exact Hfill|]. split; [exact Hzero|].
  destruct (Qpositive (strokeWidth config)); [|exact Hc].
  destruct Hc as (ss & Hcalls & Hstyle & Hwidth & Hjoin & _ & Hshadow).
  exists ss. repeat (split; [assumption|]).
  rewrite Hcol. destruct (dropShadowEnabled config).
  - destruct Hshadow as (_ & _ & _ & ->). reflexivity.
  - destruct Hshadow as (_ & _ & _ & ->). reflexivity.
Qed.

End CompositorFacts.

(* ===================================================================== *)
(** * 10. The batch orchestrator                                          *)
(* ===================================================================== *)

Section OrchestratorFacts.

Variable localTime : TimeValue -> JsDate.
Variable measureText : Font -> string -> Q.
Variable getContext : Image -> bool.
Variable encodes : Image -> bool.
Variable drawId : nat -> string.

Local Abbreviation processImage' := (processImage localTime measureText getContext encodes).
Local Abbreviation processLoop' := (processLoop localTime measureText getContext encodes).
Local Abbreviation settle' := (settle localTime measureText getContext encodes).
Local Abbreviation settleAll' := (settleAll localTime measureText getContext encodes).
Local Abbreviation processable' := (processable getContext encodes).
Local Abbreviation terminalStatus' := (terminalStatus getContext encodes).
Local Abbreviation submit' := (submit drawId).
Local Abbreviation settledPrefix' :=
  (settledPrefix localTime measureText getContext encodes drawId).
Local Abbreviation handleFiles' :=
  (handleFiles localTime measureText getContext encodes drawId).

(** ** The pipeline of one file *)

Lemma processImage_outcome file config w :
  match fst (processImage' file config w) with
  | Returns _ => processable' file = true
  | Throws => processable' file = false
  end.
Proof.
  unfold processImage, processable, createObjectURL.
  destruct (decoded file) as [img|]; cbn; [|reflexivity].
  destruct (getContext img); cbn; [|reflexivity].
  destruct (encodes img); cbn; reflexivity.
Qed.

(** ** The two updates *)

Lemma markDone_id i res img : id (markDone i res img) = id img.
Proof. unfold markDone. destruct (String.eqb (id img) i); reflexivity. Qed.

Lemma markError_id i img : id (markError i img) = id img.
Proof. unfold markError. destruct (String.eqb (id img) i); reflexivity. Qed.

Lemma markDone_other i res img : id img <> i -> markDone i res img = img.
Proof.
  intros Hne. unfold markDone.
  destruct (String.eqb_spec (id img) i); [contradiction | reflexivity].
Qed.

Lemma markError_other i img : id img <> i -> markError i img = img.
Proof.
  intros Hne. unfold markError.
  destruct (String.eqb_spec (id img) i); [contradiction | reflexivity].
Qed.

Lemma map_untouched (upd : ProcessedImage -> ProcessedImage) i l :
  (forall img, id img <> i -> upd img = img) ->
  i ∉ map id l -> map upd l = l.
Proof.
  intros Hupd. induction l as [|a l IH]; cbn; intros Hnin; [reflexivity|].
  apply not_elem_of_cons in Hnin as [Hne Hnin].
  rewrite Hupd by congruence. rewrite IH by exact Hnin. reflexivity.
Qed.

(** With pairwise distinct ids, mapping an update for one id over the
    collection changes the record of that id and nothing else. *)
Lemma map_update_one (upd : ProcessedImage -> ProcessedImage) pre r post :
  (forall img, id img <> id r -> upd img = img) ->
  NoDup (map id (pre ++ r :: post)) ->
  map upd (pre ++ r :: post) = pre ++ upd r :: post.
Proof.
  intros Hupd Hnd. rewrite map_app in Hnd. cbn in Hnd.
  apply NoDup_app in Hnd as (_ & Hpre & Hpost).
  apply NoDup_cons in Hpost as [Hpost _].
  rewrite map_app. cbn.
  rewrite (map_untouched upd (id r) pre), (map_untouched upd (id r) post); auto.
  intros Hin. apply (Hpre _ Hin). left.
Qed.

(** ** One settled record *)

Lemma settle_id config file pending w :
  id (fst (settle' config file pending w)) = id pending.
Proof.
  unfold settle. destruct (processImage' file config w) as [[res|] w'].
  - apply markDone_id.
  - apply markError_id.
Qed.

Lemma settle_status config file pending w :
  status (fst (settle' config file pending w)) = terminalStatus' file.
Proof.
  unfold settle, terminalStatus.
  pose proof (processImage_outcome file config w) as Hp.
  destruct (processImage' file config w) as [[res|] w']; cbn in *; rewrite Hp.
  - unfold markDone. rewrite String.eqb_refl. reflexivity.
  - unfold markError. rewrite String.eqb_refl. reflexivity.
Qed.

Lemma settle_originalName config file pending w :
  originalName (fst (settle' config file pending w)) = originalName pending.
Proof.
  unfold settle. destruct (processImage' file config w) as [[res|] w'].
  - unfold markDone. rewrite String.eqb_refl. reflexivity.
  - unfold markError. rewrite String.eqb_refl. reflexivity.
Qed.

(** ** The records of a work list *)

Lemma settleAll_length config work w :
  length (settleAll' config work w) = length work.
Proof.
  revert w; induction work as [|[file pending] rest IH]; intros w; cbn.
  - reflexivity.
  - destruct (settle' config file pending w) as [settled w']. cbn.
    now rewrite IH.
Qed.

Lemma settleAll_id config work w :
  map id (settleAll' config work w) = map id (map snd work).
Proof.
  revert w; induction work as [|[file pending] rest IH]; intros w; cbn.
  - reflexivity.
  - pose proof (settle_id config file pending w) as Hid.
    destruct (settle' config file pending w) as [settled w']. cbn in *.
    now rewrite IH, Hid.
Qed.

Lemma settleAll_originalName config work w :
  map originalName (settleAll' config work w) = map originalName (map snd work).
Proof.
  revert w; induction work as [|[file pending] rest IH]; intros w; cbn.
  - reflexivity.
  - pose proof (settle_originalName config file pending w) as Hn.
    destruct (settle' config file pending w) as [settled w']. cbn in *.
    now rewrite IH, Hn.
Qed.

Lemma settleAll_status config work w :
  map status (settleAll' config work w) = map terminalStatus' (map fst work).
Proof.
  revert w; induction work as [|[file pending] rest IH]; intros w; cbn.
  - reflexivity.
  - pose proof (settle_status config file pending w) as Hs.
    destruct (settle' config file pending w) as [settled w']. cbn in *.
    now rewrite IH, Hs.
Qed.

(** Settling a prefix of the work list gives the prefix of the settled
    records: what happens to later files does not reach back. *)
Lemma settleAll_take config work w k :
  settleAll' config (take k work) w = take k (settleAll' config work w).
Proof.
  revert w k; induction work as [|[file pending] rest IH]; intros w [|k]; cbn;
    try reflexivity.
  destruct (settle' config file pending w) as [settled w']. cbn.
  now rewrite IH.
Qed.

Lemma map_id_markDone i res l : map id (map (markDone i res) l) = map id l.
Proof.
  induction l as [|a l IH]; cbn; [reflexivity|]. now rewrite markDone_id, IH.
Qed.

Lemma map_id_markError i l : map id (map (markError i) l) = map id l.
Proof.
  induction l as [|a l IH]; cbn; [reflexivity|]. now rewrite markError_id, IH.
Qed.

(** ** The loop *)

(** With pairwise distinct ids the loop rewrites exactly the records of
    its work list, each into its settled form, and leaves the records
    around them alone. *)
Lemma processLoop_images config work st pre post :
  images st = pre ++ map snd work ++ post ->
  NoDup (map id (images st)) ->
  images (processLoop' config work st)
  = pre ++ settleAll' config work (world st) ++ post.
Proof.
  revert st pre; induction work as [|[file r] rest IH]; intros st pre Himg Hnd.
  - exact Himg.
  - assert (Himg' : images st = pre ++ r :: (map snd rest ++ post))
      by (rewrite Himg; reflexivity).
    cbn [processLoop settleAll]. unfold settle.
    destruct (processImage' file config (world st)) as [[res|] w] eqn:E.
    + rewrite (IH _ (pre ++ [markDone (id r) res r])).
      * cbn. now rewrite <- app_assoc.
      * cbn [images setImages setWorld]. rewrite Himg', <- app_assoc.
        apply map_update_one; [apply markDone_other | now rewrite <- Himg'].
      * cbn [images setImages setWorld]. now rewrite map_id_markDone.
    + rewrite (IH _ (pre ++ [markError (id r) r])).
      * cbn. now rewrite <- app_assoc.
      * cbn [images setImages setWorld]. rewrite Himg', <- app_assoc.
        apply map_update_one; [apply markError_other | now rewrite <- Himg'].
      * cbn [images setImages setWorld]. now rewrite map_id_markError.
Qed.

Lemma processLoop_flags config work st :
  isProcessing (processLoop' config work st) = isProcessing st /\
  lightboxOpen (processLoop' config work st) = lightboxOpen st.
Proof.
  revert st; induction work as [|[file r] rest IH]; intros st; [cbn; tauto|].
  cbn [processLoop].
  destruct (processImage' file config (world st)) as [[res|] w];
    rewrite (proj1 (IH _)), (proj2 (IH _)); split; reflexivity.
Qed.

(** ** Submission *)

Lemma newRecords_length validFiles n :
  length (newRecords drawId validFiles n) = length validFiles.
Proof.
  revert n; induction validFiles as [|f l IH]; intros n; cbn; [|rewrite IH]; reflexivity.
Qed.

Lemma newRecords_pending validFiles n :
  Forall (fun r => status r = processing /\ processedUrl r = "")
         (newRecords drawId validFiles n).
Proof.
  revert n; induction validFiles as [|f l IH]; intros n; cbn; constructor; auto.
Qed.

Lemma newRecords_names validFiles n :
  map originalName (newRecords drawId validFiles n) = map name validFiles.
Proof.
  revert n; induction validFiles as [|f l IH]; intros n; cbn; [|rewrite IH]; reflexivity.
Qed.

Lemma zip_newRecords validFiles n :
  map fst (zip validFiles (newRecords drawId validFiles n)) = validFiles /\
  map snd (zip validFiles (newRecords drawId validFiles n))
  = newRecords drawId validFiles n.
Proof.
  revert n; induction validFiles as [|f l IH]; intros n; cbn; [tauto|].
  destruct (IH (S n)) as [-> ->]. tauto.
Qed.

Lemma submit_work files st :
  fst (submit' files st)
  = zip (validFilesOf files)
        (newRecords drawId (validFilesOf files) (idCounter (world st))).
Proof. reflexivity. Qed.

Lemma submit_images files st :
  images (snd (submit' files st))
  = images st ++ newRecords drawId (validFilesOf files) (idCounter (world st)).
Proof. reflexivity. Qed.

Lemma map_take {A B} (f : A -> B) (l : list A) k :
  map f (take k l) = take k (map f l).
Proof.
  revert k; induction l as [|a l IH]; intros [|k]; cbn; [| | |rewrite IH]; reflexivity.
Qed.

(** The collection once the first [k] files have settled: the records
    that were there before, then the first [k] records of the batch in
    settled form, then the remaining records of the batch as they were
    created. *)
Lemma settledPrefix_images files config st k :
  let pending := newRecords drawId (validFilesOf files) (idCounter (world st)) in
  NoDup (map id (images st ++ pending)) ->
  images (settledPrefix' k files config st)
  = images st
      ++ take k (settleAll' config (fst (submit' files st))
                            (world (snd (submit' files st))))
      ++ drop k pending.
Proof.
  intros pending Hnd. unfold settledPrefix.
  destruct (submit' files st) as [work st1] eqn:E.
  assert (Hwork : work = fst (submit' files st)) by now rewrite E.
  assert (Hst1 : st1 = snd (submit' files st)) by now rewrite E.
  cbn [fst snd].
  rewrite <- settleAll_take.
  assert (Hsnd : map snd work = pending).
  { rewrite Hwork. cbn. apply zip_newRecords. }
  apply processLoop_images.
  - rewrite map_take, Hsnd, app_assoc, <- (app_assoc (images st)), take_drop.
    rewrite Hst1. apply submit_images.
  - rewrite Hst1, submit_images. exact Hnd.
Qed.

Lemma handleFiles_images files config st :
  images (handleFiles' files config st)
  = images (settledPrefix' (length (validFilesOf files)) files config st).
Proof.
  unfold handleFiles, settledPrefix.
  destruct (validFilesOf files) as [|f l] eqn:Ev.
  - unfold submit. rewrite Ev. cbn. now rewrite app_nil_r.
  - destruct (submit' files st) as [work st1] eqn:E. cbn [images setIsProcessing].
    assert (Hlen : length work = length (f :: l)).
    { assert (Hw : work = fst (submit' files st)) by now rewrite E.
      rewrite Hw. unfold submit. cbn [fst]. rewrite Ev.
      rewrite <- (length_map fst). now rewrite (proj1 (zip_newRecords _ _)). }
    rewrite <- Hlen, firstn_all. reflexivity.
Qed.

Lemma map_drop {A B} (f : A -> B) (l : list A) k :
  map f (drop k l) = drop k (map f l).
Proof.
  revert k; induction l as [|a l IH]; intros [|k]; cbn; try reflexivity. apply IH.
Qed.

Lemma lookup_map {A B} (f : A -> B) (l : list A) i :
  map f l !! i = option_map f (l !! i).
Proof.
  revert i; induction l as [|a l IH]; intros [|i]; cbn; try reflexivity. apply IH.
Qed.

Lemma newRecords_status validFiles n :
  map status (newRecords drawId validFiles n)
  = replicate (length validFiles) processing.
Proof.
  revert n; induction validFiles as [|f l IH]; intros n; cbn; [|rewrite IH]; reflexivity.
Qed.

(** C8: the files of a batch are processed independently and in
    submission order.  Under pairwise distinct ids, once the first [k]
    files of the batch have settled, each of the first [k] records
    carries the terminal status its own file earns (done when the file
    goes through the pipeline, error when it does not), every later
    record is still processing, the records of earlier batches are as
    they were, and the records stand in submission order; a failing file
    therefore marks its own record only and the loop carries on, so at
    the end every record of the batch is terminal. *)
Theorem handleFiles_independent_in_order
    (files : list File) (config : ImageConfig) (st : AppState) :
  let valid := validFilesOf files in
  let pending := newRecords drawId valid (idCounter (world st)) in
  NoDup (map id (images st ++ pending)) ->
  (forall k,
     map originalName (images (settledPrefix' k files config st))
     = map originalName (images st) ++ map name valid /\
     map status (images (settledPrefix' k files config st))
     = map status (images st)
         ++ map terminalStatus' (take k valid)
         ++ replicate (length valid - k) processing) /\
  map originalName (images (handleFiles' files config st))
  = map originalName (images st) ++ map name valid /\
  map status (images (handleFiles' files config st))
  = map status (images st) ++ map terminalStatus' valid.
Proof.
  intros valid pending Hnd.
  assert (Hk : forall k,
     map originalName (images (settledPrefix' k files config st))
     = map originalName (images st) ++ map name valid /\
     map status (images (settledPrefix' k files config st))
     = map status (images st)
         ++ map terminalStatus' (take k valid)
         ++ replicate (length valid - k) processing).
  { intros k. rewrite (settledPrefix_images files config st k Hnd).
    fold valid pending. rewrite !map_app, !map_take, !map_drop.
    rewrite settleAll_originalName, settleAll_status, submit_work.
    fold valid pending.
    destruct (zip_newRecords valid (idCounter (world st))) as [Hfst Hsnd].
    fold pending in Hfst, Hsnd. rewrite Hfst, Hsnd. split.
    - rewrite take_drop. unfold pending. now rewrite newRecords_names.
    - unfold pending. now rewrite newRecords_status, drop_replicate. }
  split; [exact Hk|].
  rewrite handleFiles_images. fold valid.
  destruct (Hk (length valid)) as [-> ->].
  rewrite firstn_all, Nat.sub_diag. cbn. now rewrite app_nil_r.
Qed.

(** ** Clearing *)

Lemma revoke_fold_stays_revoked (l : list ProcessedImage) (w : World) u :
  objectUrls w !! u = None ->
  objectUrls
    (fold_left
       (fun w img =>
          if negb (String.eqb (processedUrl img) "")
          then revokeObjectURL (processedUrl img) w else w) l w) !! u = None.
Proof.
  revert w; induction l as [|a l IH]; intros w Hw; cbn; [exact Hw|].
  apply IH. destruct (negb (String.eqb (processedUrl a) "")); [|exact Hw].
  cbn. destruct (decide (processedUrl a = u)) as [-> | Hne].
  - apply lookup_delete_eq.
  - now rewrite lookup_delete_ne.
Qed.

Lemma revoke_fold_revokes (l : list ProcessedImage) (w : World) img :
  In img l -> processedUrl img <> "" ->
  objectUrls
    (fold_left
       (fun w img =>
          if negb (String.eqb (processedUrl img) "")
          then revokeObjectURL (processedUrl img) w else w) l w)
    !! processedUrl img = None.
Proof.
  revert w; induction l as [|a l IH]; intros w Hin Hurl; [destruct Hin|].
  destruct Hin as [-> | Hin]; [|now apply IH].
  cbn. apply revoke_fold_stays_revoked.
  destruct (String.eqb_spec (processedUrl img) ""); [contradiction|].
  cbn. apply lookup_delete_eq.
Qed.


End OrchestratorFacts.

(** The sample batch of five files, the third corrupt: ids are pairwise
    distinct, and the run ends with four records done and one failed, in
    submission order. *)
Lemma handleFiles_independent_in_order_witness :
  NoDup (map id (images empty_app
                 ++ newRecords sample_drawId (validFilesOf sample_batch)
                               (idCounter (world empty_app)))) /\
  map originalName
    (images (handleFiles sample_localTime measure_ten_per_char sample_getContext
                         sample_encodes sample_drawId
                         sample_batch DEFAULT_CONFIG empty_app))
  = ["a.jpg"; "b.jpg"; "c.jpg"; "d.jpg"; "e.jpg"] /\
  map status
    (images (handleFiles sample_localTime measure_ten_per_char sample_getContext
                         sample_encodes sample_drawId
                         sample_batch DEFAULT_CONFIG empty_app))
  = [done; done; error; done; done].
Proof.
  assert (Hnd : NoDup (map id (images empty_app
                 ++ newRecords sample_drawId (validFilesOf sample_batch)
                               (idCounter (world empty_app)))))
    by (apply (bool_decide_unpack _); vm_compute; reflexivity).
  split; [exact Hnd|].
  destruct (handleFiles_independent_in_order
              sample_localTime measure_ten_per_char sample_getContext
              sample_encodes sample_drawId
              sample_batch DEFAULT_CONFIG empty_app Hnd) as (_ & Hn & Hs).
  split; [rewrite Hn | rewrite Hs]; reflexivity.
Defined.


(** The distinct-ids hypothesis carries weight: the loop addresses a
    record by its id alone, so two records drawn with the same id are
    updated together. *)
Example shared_id_shared_fate :
  map status
    (images (handleFiles sample_localTime measure_ten_per_char sample_getContext
                         sample_encodes constant_drawId
                         [valid_photo "a.jpg"; corrupt_photo "c.jpg"]
                         DEFAULT_CONFIG empty_app))
  = [error; error].
Proof. vm_compute. reflexivity. Qed.

(* ===================================================================== *)
(** * 11. Download names, the archive and the viewer                      *)
(* ===================================================================== *)

Section DownloadFacts.

Lemma all_extension_chars_app a b :
  all_extension_chars (a +:+ b) = all_extension_chars a && all_extension_chars b.
Proof.
  induction a as [|c a IH]; [reflexivity|].
  rewrite append_cons. cbn [all_extension_chars]. now rewrite IH, andb_assoc.
Qed.

Lemma matches_extension_inner c base ext :
  matches_extension (String c (base +:+ "." +:+ ext)) = false.
Proof.
  cbn [matches_extension]. rewrite all_extension_chars_app.
  change ("." +:+ ext) with (String "." ext). cbn [all_extension_chars extension_char].
  cbn. now rewrite !andb_false_r.
Qed.

Lemma stripExtension_cuts base ext :
  ext <> "" -> all_extension_chars ext = true ->
  stripExtension (base +:+ "." +:+ ext) = base.
Proof.
  intros Hne Hall. induction base as [|c base IH].
  - change ("" +:+ "." +:+ ext) with (String "." ext).
    cbn [stripExtension matches_extension]. rewrite Hall.
    destruct (String.eqb_spec ext ""); [contradiction | reflexivity].
  - rewrite append_cons. cbn [stripExtension].
    rewrite matches_extension_inner. now rewrite IH.
Qed.

Lemma matches_extension_ends s :
  matches_extension s = true ->
  exists ext, ends_in_extension s "" ext.
Proof.
  destruct s as [|c rest]; [discriminate|]. cbn [matches_extension].
  intros H. apply andb_prop in H as [H Hall]. apply andb_prop in H as [Hc Hne].
  apply Ascii.eqb_eq in Hc as ->. exists rest. repeat split; auto.
  intros ->. discriminate Hne.
Qed.

Lemma stripExtension_keeps s :
  (forall base ext, ~ ends_in_extension s base ext) -> stripExtension s = s.
Proof.
  induction s as [|c s IH]; intros Hno; [reflexivity|].
  cbn [stripExtension].
  destruct (matches_extension (String c s)) eqn:E.
  - apply matches_extension_ends in E as [ext He]. now apply Hno in He.
  - f_equal. apply IH. intros base ext (-> & Hne & Hall).
    apply (Hno (String c base) ext). repeat split; auto.
Qed.

(** X1: the download name of a file.  When the original name ends in
    an extension the extension is cut off, whatever stands before it,
    so the name becomes [stamped_<base>.png]; a name that does not end
    in an extension is kept whole. *)
Theorem downloadName_extension (name : string) :
  (forall base ext, ends_in_extension name base ext ->
     downloadName name = "stamped_" +:+ base +:+ ".png") /\
  ((forall base ext, ~ ends_in_extension name base ext) ->
     downloadName name = "stamped_" +:+ name +:+ ".png").
Proof.
  unfold downloadName. split.
  - intros base ext (-> & Hne & Hall). now rewrite stripExtension_cuts.
  - intros Hno. now rewrite stripExtension_keeps.
Qed.

Lemma downloadName_extension_witness :
  ends_in_extension "IMG_0001.tar.jpeg" "IMG_0001.tar" "jpeg" /\
  downloadName "IMG_0001.tar.jpeg" = "stamped_IMG_0001.tar.png".
Proof.
  assert (H : ends_in_extension "IMG_0001.tar.jpeg" "IMG_0001.tar" "jpeg").
  { repeat split. intros E; discriminate E. }
  split; [exact H|].
  exact (proj1 (downloadName_extension "IMG_0001.tar.jpeg") _ _ H).
Defined.

Lemma zipEntries_entryFor doneImages w zip0 zip :
  zipEntries doneImages w zip0 = Returns zip ->
  forall n, zip !! n = entryFor n doneImages w (zip0 !! n).
Proof.
  revert zip0; induction doneImages as [|image rest IH]; intros zip0; cbn.
  - intros [= ->] n. reflexivity.
  - destruct (objectUrls w !! processedUrl image) as [blob|] eqn:E;
      [|discriminate].
    intros H n. rewrite (IH _ H n).
    destruct (String.eqb_spec (downloadName (originalName image)) n) as [-> | Hne].
    + now rewrite lookup_insert_eq.
    + now rewrite lookup_insert_ne.
Qed.

Lemma zipEntries_returns doneImages w zip0 :
  Forall (fun image => is_Some (objectUrls w !! processedUrl image)) doneImages ->
  exists zip, zipEntries doneImages w zip0 = Returns zip.
Proof.
  revert zip0; induction doneImages as [|image rest IH]; intros zip0 Hlive; cbn.
  - eauto.
  - apply Forall_cons in Hlive as [[blob ->] Hlive]. now apply IH.
Qed.

Lemma zipEntries_dom doneImages w zip0 zip :
  zipEntries doneImages w zip0 = Returns zip ->
  dom zip = dom zip0 ∪ list_to_set (map (fun image => downloadName (originalName image))
                                        doneImages).
Proof.
  revert zip0; induction doneImages as [|image rest IH]; intros zip0; cbn.
  - intros [= ->]. set_solver.
  - destruct (objectUrls w !! processedUrl image) as [blob|]; [|discriminate].
    intros H. rewrite (IH _ H), dom_insert_L. set_solver.
Qed.

Lemma size_list_to_set_length (l : list string) :
  size (list_to_set l : gset string) <= length l.
Proof.
  induction l as [|x l IH]; cbn [list_to_set length].
  - now rewrite size_empty.
  - rewrite size_union_alt, size_singleton.
    assert (size (list_to_set l ∖ {[x]} : gset string)
            <= size (list_to_set l : gset string))
      by (apply subseteq_size; set_solver).
    lia.
Qed.

Lemma size_list_to_set_dup (l : list string) :
  ~ NoDup l -> size (list_to_set l : gset string) < length l.
Proof.
  induction l as [|x l IH]; intros Hdup.
  - exfalso. apply Hdup. constructor.
  - cbn [list_to_set length].
    destruct (decide (x ∈ l)) as [Hin | Hnin].
    + replace ({[x]} ∪ list_to_set l : gset string) with (list_to_set l : gset string)
        by set_solver.
      pose proof (size_list_to_set_length l). lia.
    + assert (Hl : ~ NoDup l) by (intros Hnd; apply Hdup; now constructor).
      rewrite size_union by set_solver. rewrite size_singleton.
      specialize (IH Hl). lia.
Qed.

(** X2: "download all" with two or more finished images whose URLs are
    live packs one archive named metastamp_images.zip.  Only finished
    images are filed; each is filed under its download name, and an
    entry holds the blob of the last image of that name, so images that
    share a download name leave a single entry. *)
Theorem handleDownloadAll_archive (images : list ProcessedImage) (w : World) :
  2 <= length (doneImagesOf images) ->
  Forall (fun image => is_Some (objectUrls w !! processedUrl image))
         (doneImagesOf images) ->
  exists zip,
    handleDownloadAll images w
    = (Returns (ZipDownload zip
                  (mkDownload ("blob:" +:+ nat_toString (urlCounter w))
                              "metastamp_images.zip")),
       mkWorld (clock w) (objectUrls w) (S (urlCounter w)) (idCounter w)) /\
    (forall n, zip !! n = entryFor n (doneImagesOf images) w None) /\
    dom zip = list_to_set (map (fun image => downloadName (originalName image))
                               (doneImagesOf images)) /\
    size zip <= length (doneImagesOf images).
Proof.
  intros Hlen Hlive. unfold handleDownloadAll.
  destruct (zipEntries_returns _ w ∅ Hlive) as [zip Hzip].
  exists zip.
  assert (Hdom : dom zip
                 = list_to_set (map (fun image => downloadName (originalName image))
                                    (doneImagesOf images))).
  { rewrite (zipEntries_dom _ _ _ _ Hzip). set_solver. }
  split; [|split; [|split]].
  - destruct (doneImagesOf images) as [|a [|b l]]; cbn in Hlen; try lia.
    now rewrite Hzip.
  - intros n. rewrite (zipEntries_entryFor _ _ _ _ Hzip n). now rewrite lookup_empty.
  - exact Hdom.
  - rewrite <- size_dom, Hdom.
    etransitivity; [apply size_list_to_set_length|]. now rewrite length_map.
Qed.

Lemma handleDownloadAll_archive_witness :
  exists zip,
    fst (handleDownloadAll
           [done_record "a" "blob:1" "a.jpg"; done_record "b" "blob:3" "a.png"]
           sample_urls)
    = Returns (ZipDownload zip (mkDownload "blob:4" "metastamp_images.zip")) /\
    zip !! "stamped_a.png" = Some (EncodedCanvas (mkCanvas fresh_context [DrawImage 0 0])) /\
    size zip <= 2.
Proof.
  destruct (handleDownloadAll_archive
              [done_record "a" "blob:1" "a.jpg"; done_record "b" "blob:3" "a.png"]
              sample_urls) as (zip & Hrun & Hentry & _ & Hsize).
  - cbn. lia.
  - repeat constructor; eexists; vm_compute; reflexivity.
  - exists zip. split; [now rewrite Hrun|]. split; [|exact Hsize].
    rewrite Hentry. vm_compute. reflexivity.
Defined.

(** X3: the archive has one entry per distinct download name.  When
    the finished images have pairwise distinct download names nothing
    is lost; when two of them share a download name (say a.jpg and
    a.png) the archive holds fewer entries than there are finished
    images. *)
Theorem archive_name_collisions (images : list ProcessedImage) (w : World)
    (zip : gmap string UrlTarget) (link : Download) :
  fst (handleDownloadAll images w) = Returns (ZipDownload zip link) ->
  let names := map (fun image => downloadName (originalName image))
                   (doneImagesOf images) in
  (NoDup names -> size zip = length (doneImagesOf images)) /\
  (~ NoDup names -> size zip < length (doneImagesOf images)).
Proof.
  intros Hrun names.
  assert (Hdom : dom zip = list_to_set names).
  { unfold handleDownloadAll in Hrun.
    destruct (doneImagesOf images) as [|a [|b l]] eqn:E; try discriminate Hrun.
    destruct (zipEntries (a :: b :: l) w ∅) as [z|] eqn:Ez; [|discriminate Hrun].
    cbn in Hrun. injection Hrun as -> _.
    rewrite (zipEntries_dom _ _ _ _ Ez). unfold names. set_solver. }
  rewrite <- size_dom, Hdom. unfold names. split.
  - intros Hnd. rewrite size_list_to_set by exact Hnd. now rewrite length_map.
  - intros Hdup. rewrite <- (length_map (fun image => downloadName (originalName image))).
    now apply size_list_to_set_dup.
Qed.

Lemma archive_name_collisions_witness :
  exists zip link,
    fst (handleDownloadAll
           [done_record "a" "blob:1" "a.jpg"; done_record "b" "blob:3" "a.png"]
           sample_urls) = Returns (ZipDownload zip link) /\
    size zip < 2.
Proof.
  destruct (handleDownloadAll
              [done_record "a" "blob:1" "a.jpg"; done_record "b" "blob:3" "a.png"]
              sample_urls) as [[[| |zip link]|] w'] eqn:E;
    try (vm_compute in E; discriminate E).
  exists zip, link. split; [reflexivity|].
  assert (Hrun : fst (handleDownloadAll
                        [done_record "a" "blob:1" "a.jpg";
                         done_record "b" "blob:3" "a.png"] sample_urls)
                 = Returns (ZipDownload zip link)) by now rewrite E.
  apply (proj2 (archive_name_collisions _ sample_urls zip link Hrun)).
  intros Hnd. vm_compute in Hnd. apply NoDup_cons in Hnd as [Hnin _].
  apply Hnin. left.
Defined.

End DownloadFacts.

Section ViewerFacts.

Local Open Scope Z_scope.

(** X4: [clampIndex] always yields a position of the list: the result
    lies between 0 and [len - 1] when the list is not empty and is 0
    when it is; an index that is already a position is left alone. *)
Theorem clampIndex_position (index len : Z) :
  (0 < len -> 0 <= clampIndex index len < len) /\
  (len <= 0 -> clampIndex index len = 0) /\
  (0 <= index < len -> clampIndex index len = index).
Proof.
  unfold clampIndex. destruct (Z.leb_spec len 0); repeat split; lia.
Qed.

Lemma clampIndex_position_witness :
  0 < 3 /\ 0 <= clampIndex 7 3 < 3 /\ clampIndex (-2) 3 = 0.
Proof.
  assert (H : 0 < 3) by lia.
  split; [exact H|]. split.
  - exact (proj1 (clampIndex_position 7 3) H).
  - reflexivity.
Defined.

Lemma goNext_position len i :
  0 <= i < len -> goNext len i = if Z.eqb i (len - 1) then 0 else i + 1.
Proof.
  intros Hi. unfold goNext.
  destruct (Z.leb_spec len 1) as [Hle | Hgt].
  - assert (i = 0) by lia; subst. assert (len = 1) by lia; subst. reflexivity.
  - destruct (Z.eqb_spec i (len - 1)) as [-> | Hne].
    + replace (len - 1 + 1) with len by lia. apply Z.rem_same. lia.
    + apply Z.rem_small. lia.
Qed.

Lemma goPrev_position len i :
  0 <= i < len -> goPrev len i = if Z.eqb i 0 then len - 1 else i - 1.
Proof.
  intros Hi. unfold goPrev.
  destruct (Z.leb_spec len 1) as [Hle | Hgt].
  - assert (i = 0) by lia; subst. assert (len = 1) by lia; subst. reflexivity.
  - destruct (Z.eqb_spec i 0) as [-> | Hne].
    + replace (0 - 1 + len) with (len - 1) by lia. apply Z.rem_small. lia.
    + rewrite Z.rem_mod_nonneg by lia.
      replace (i - 1 + len) with ((i - 1) + 1 * len) by lia.
      rewrite Z_mod_plus_full. apply Z.mod_small. lia.
Qed.

(** X5: stepping through the viewer.  From a position of the list,
    next and previous give a position again, wrap around at the ends,
    and undo each other. *)
Theorem goNext_goPrev_inverse (len i : Z) :
  0 <= i < len ->
  0 <= goNext len i < len /\
  0 <= goPrev len i < len /\
  goPrev len (goNext len i) = i /\
  goNext len (goPrev len i) = i /\
  goNext len (len - 1) = (if Z.leb len 1 then len - 1 else 0) /\
  goPrev len 0 = (if Z.leb len 1 then 0 else len - 1).
Proof.
  intros Hi.
  assert (Hn : 0 <= goNext len i < len).
  { rewrite goNext_position by lia. destruct (Z.eqb_spec i (len - 1)); lia. }
  assert (Hp : 0 <= goPrev len i < len).
  { rewrite goPrev_position by lia. destruct (Z.eqb_spec i 0); lia. }
  repeat split; try lia.
  - rewrite (goPrev_position len (goNext len i)) by lia.
    rewrite goNext_position by lia.
    destruct (Z.eqb_spec i (len - 1)); cbn.
    + lia.
    + destruct (Z.eqb_spec (i + 1) 0); lia.
  - rewrite (goNext_position len (goPrev len i)) by lia.
    rewrite goPrev_position by lia.
    destruct (Z.eqb_spec i 0).
    + rewrite Z.eqb_refl. lia.
    + destruct (Z.eqb_spec (i - 1) (len - 1)); lia.
  - rewrite goNext_position by lia. rewrite Z.eqb_refl.
    destruct (Z.leb_spec len 1); lia.
  - rewrite goPrev_position by lia. cbn.
    destruct (Z.leb_spec len 1); lia.
Qed.

Lemma goNext_goPrev_inverse_witness :
  0 <= 4 < 5 /\ goNext 5 4 = 0 /\ goPrev 5 (goNext 5 4) = 4.
Proof.
  assert (H : 0 <= 4 < 5) by lia.
  split; [exact H|]. split; [reflexivity|].
  exact (proj1 (proj2 (proj2 (goNext_goPrev_inverse 5 4 H)))).
Defined.

Lemma goNext_iter len i (k : nat) :
  0 <= i < len ->
  Nat.iter k (goNext len) i = (i + Z.of_nat k) mod len.
Proof.
  intros Hi. induction k as [|k IH].
  - cbn. rewrite Z.add_0_r. symmetry. apply Z.mod_small. lia.
  - rewrite Nat.iter_succ, IH.
    assert (Hr : 0 <= (i + Z.of_nat k) mod len < len) by (apply Z.mod_pos_bound; lia).
    rewrite goNext_position by exact Hr.
    replace (i + Z.of_nat (S k)) with ((i + Z.of_nat k) + 1) by lia.
    rewrite <- (Zplus_mod_idemp_l (i + Z.of_nat k) 1 len).
    destruct (Z.eqb_spec ((i + Z.of_nat k) mod len) (len - 1)) as [-> | Hne].
    + replace (len - 1 + 1) with len by lia. symmetry. apply Z_mod_same_full.
    + symmetry. apply Z.mod_small. lia.
Qed.

(** X6: pressing next as many times as there are images leads back to
    the image one started from, and on the way every image is shown:
    after [k] presses from position [i] the viewer is at
    [(i + k) mod len]. *)
Theorem goNext_full_cycle (len i : Z) :
  0 <= i < len ->
  (forall k : nat, Nat.iter k (goNext len) i = (i + Z.of_nat k) mod len) /\
  Nat.iter (Z.to_nat len) (goNext len) i = i /\
  (forall j, 0 <= j < len -> exists k : nat, Nat.iter k (goNext len) i = j).
Proof.
  intros Hi. split; [|split].
  - intros k. now apply goNext_iter.
  - rewrite goNext_iter by exact Hi. rewrite Z2Nat.id by lia.
    replace (i + len) with (i + 1 * len) by lia.
    rewrite Z_mod_plus_full. apply Z.mod_small. lia.
  - intros j Hj. exists (Z.to_nat ((j - i) mod len)).
    rewrite goNext_iter by exact Hi.
    rewrite Z2Nat.id by (apply Z.mod_pos_bound; lia).
    rewrite Zplus_mod_idemp_r. replace (i + (j - i)) with j by lia.
    apply Z.mod_small. lia.
Qed.

Lemma goNext_full_cycle_witness :
  0 <= 2 < 4 /\ Nat.iter (Z.to_nat 4) (goNext 4) 2 = 2.
Proof.
  assert (H : 0 <= 2 < 4) by lia.
  split; [exact H|].
  exact (proj1 (proj2 (goNext_full_cycle 4 2 H))).
Defined.

End ViewerFacts.

Section ViewerOpening.

Lemma findIndexById_spec imageId l :
  (findIndexById imageId l = (-1)%Z /\
   forall img, In img l -> id img <> imageId) \/
  (exists (n : nat) img,
     findIndexById imageId l = Z.of_nat n /\
     l !! n = Some img /\ id img = imageId /\
     forall m img', (m < n)%nat -> l !! m = Some img' -> id img' <> imageId).
Proof.
  induction l as [|a l IH]; cbn [findIndexById].
  - left. split; [reflexivity | intros img []].
  - destruct (String.eqb_spec (id a) imageId) as [Heq | Hne].
    + right. exists 0%nat, a. repeat split; auto. intros m img' Hm. lia.
    + destruct IH as [[-> Hnone] | (n & img & -> & Hn & Hid & Hfirst)].
      * left. split; [reflexivity|]. intros img [<- | Hin]; auto.
      * right. exists (S n), img.
        destruct (Z.ltb_spec (Z.of_nat n) 0); [lia|].
        repeat split; auto; [lia|].
        intros [|m] img' Hm; cbn; [intros [= <-]; exact Hne|].
        apply Hfirst. lia.
Qed.

Lemma lightboxImagesOf_lookup images n img :
  doneImagesOf images !! n = Some img ->
  lightboxImagesOf images !! n
  = Some (mkLightboxImage (processedUrl img) (originalName img)
                          (Some (downloadName (originalName img)))
                          (Some (timestamp img))).
Proof.
  intros H. unfold lightboxImagesOf. now rewrite lookup_map, H.
Qed.

(** X7: opening the viewer from a thumbnail.  For the id of a finished
    image the viewer opens on the first finished image of that id, and
    what it shows is that image's output URL; for any other id (an
    image still processing, a failed one, an unknown id) the viewer
    state is left as it was. *)
Theorem openLightboxForId_shows (images : list ProcessedImage)
    (imageId : string) (v : Viewer) :
  ((forall img, In img (doneImagesOf images) -> id img <> imageId) ->
   openLightboxForId images imageId v = v) /\
  (forall img, In img (doneImagesOf images) -> id img = imageId ->
   exists (n : nat) shown,
     openLightboxForId images imageId v = mkViewer true (Z.of_nat n) /\
     doneImagesOf images !! n = Some shown /\
     id shown = imageId /\ status shown = done /\
     src <$> (lightboxImagesOf images !! n) = Some (processedUrl shown)).
Proof.
  unfold openLightboxForId.
  destruct (findIndexById_spec imageId (doneImagesOf images))
    as [[Hidx Hnone] | (n & shown & Hidx & Hn & Hid & _)]; rewrite Hidx.
  - split; [reflexivity|]. intros img Hin Heq. now apply Hnone in Hin.
  - destruct (Z.ltb_spec (Z.of_nat n) 0); [lia|]. split.
    + intros Hnone. exfalso. apply (Hnone shown); [|exact Hid].
      apply list_elem_of_In, list_elem_of_lookup. eauto.
    + intros img _ _. exists n, shown. repeat split; auto.
      * assert (Hin : In shown (doneImagesOf images))
          by (apply list_elem_of_In, list_elem_of_lookup; eauto).
        unfold doneImagesOf in Hin. apply filter_In in Hin as [_ Hd].
        unfold isDone in Hd. now destruct (status shown).
      * now rewrite (lightboxImagesOf_lookup _ _ _ Hn).
Qed.

Lemma openLightboxForId_shows_witness :
  In (done_record "b" "blob:3" "b.jpg")
     (doneImagesOf [mkProcessed "a" "a.jpg" "" "" false error;
                    done_record "b" "blob:3" "b.jpg"]) /\
  exists (n : nat) shown,
    openLightboxForId [mkProcessed "a" "a.jpg" "" "" false error;
                       done_record "b" "blob:3" "b.jpg"] "b" (mkViewer false 0)
    = mkViewer true (Z.of_nat n) /\ id shown = "b".
Proof.
  assert (Hin : In (done_record "b" "blob:3" "b.jpg")
     (doneImagesOf [mkProcessed "a" "a.jpg" "" "" false error;
                    done_record "b" "blob:3" "b.jpg"])) by (cbn; auto).
  split; [exact Hin|].
  destruct (proj2 (openLightboxForId_shows
                     [mkProcessed "a" "a.jpg" "" "" false error;
                      done_record "b" "blob:3" "b.jpg"] "b" (mkViewer false 0))
                  _ Hin eq_refl) as (n & shown & Hopen & _ & Hid & _).
  exists n, shown. split; assumption.
Defined.

(** X8: the effect that keeps the viewer in step with the list.  A
    closed viewer is not touched; an open viewer is closed when no
    finished image is left; and an open viewer whose index was not
    negative points at a finished image afterwards. *)
Theorem syncViewer_consistent (images : list ProcessedImage) (v : Viewer) :
  let len := Z.of_nat (length (lightboxImagesOf images)) in
  (viewerOpen v = false -> syncViewer images v = v) /\
  (viewerOpen v = true -> len = 0%Z ->
   viewerOpen (syncViewer images v) = false) /\
  (viewerOpen (syncViewer images v) = true -> (0 <= lightboxIndex v)%Z ->
   (0 <= lightboxIndex (syncViewer images v) < len)%Z) /\
  (viewerOpen v = true -> (0 <= lightboxIndex v < len)%Z ->
   syncViewer images v = v).
Proof.
  intros len. unfold syncViewer. fold len.
  destruct v as [open idx]; cbn [viewerOpen lightboxIndex].
  destruct open; cbn [negb].
  - split; [discriminate|].
    destruct (Z.eqb_spec len 0) as [Hz | Hnz]; cbn [viewerOpen lightboxIndex];
      destruct (Z.leb_spec len idx); cbn [viewerOpen lightboxIndex];
      repeat split; intros; try discriminate; try lia; try reflexivity.
  - repeat split; intros; try discriminate; reflexivity.
Qed.

Lemma syncViewer_consistent_witness :
  viewerOpen (mkViewer true 3) = true /\
  viewerOpen (syncViewer [] (mkViewer true 3)) = false.
Proof.
  split; [reflexivity|].
  exact (proj1 (proj2 (syncViewer_consistent [] (mkViewer true 3))) eq_refl eq_refl).
Defined.

End ViewerOpening.

(* ===================================================================== *)
(** * 12. The settings panel                                              *)
(* ===================================================================== *)

Lemma DEFAULT_CONFIG_consistent : preset_consistent DEFAULT_CONFIG.
Proof. intros _. reflexivity. Qed.

Lemma updateConfig_consistent c e :
  preset_consistent c -> sent_by_panel c e ->
  preset_consistent (updateConfig c e).
Proof.
  intros Hc He. unfold preset_consistent, updateConfig in *.
  destruct (useCustomFormat c) eqn:Hmode.
  - destruct e; cbn in He |- *; rewrite ?Hmode; cbn;
      solve [ discriminate | congruence | contradiction ].
  - specialize (Hc eq_refl).
    destruct e; cbn in He |- *; rewrite ?Hmode; cbn; intros _;
      solve [ exact Hc | reflexivity | congruence | contradiction ].
Qed.

(** X9: the panel keeps format string and presets in step.  The default
    configuration is consistent, every update a control of the panel
    sends keeps a consistent configuration consistent, and the custom
    switch yields a consistent configuration from any configuration. *)
Theorem panel_keeps_presets_consistent :
  preset_consistent DEFAULT_CONFIG /\
  (forall c e, preset_consistent c -> sent_by_panel c e ->
               preset_consistent (updateConfig c e)) /\
  (forall c useCustom, preset_consistent (handleCustomFormatToggle c useCustom)).
Proof.
  split; [apply DEFAULT_CONFIG_consistent|]. split.
  - apply updateConfig_consistent.
  - intros c [|]; unfold preset_consistent, handleCustomFormatToggle; cbn.
    + discriminate.
    + reflexivity.
Qed.

Lemma panel_keeps_presets_consistent_witness :
  preset_consistent DEFAULT_CONFIG /\
  sent_by_panel DEFAULT_CONFIG (timeFormatPreset_is "hh:mm A") /\
  preset_consistent (updateConfig DEFAULT_CONFIG (timeFormatPreset_is "hh:mm A")).
Proof.
  split; [exact DEFAULT_CONFIG_consistent|].
  split; [exact I|].
  exact (proj1 (proj2 panel_keeps_presets_consistent) DEFAULT_CONFIG
               (timeFormatPreset_is "hh:mm A") DEFAULT_CONFIG_consistent I).
Defined.

(** X10: custom mode and back.  Switching custom mode on changes the
    switch only; switching it off afterwards restores a consistent
    preset configuration exactly, also when the format text was edited
    in between: the custom text is dropped. *)
Theorem custom_format_round_trip (c : ImageConfig) (text : string) :
  useCustomFormat c = false -> preset_consistent c ->
  dateFormat (handleCustomFormatToggle c true) = dateFormat c /\
  handleCustomFormatToggle (handleCustomFormatToggle c true) false = c /\
  handleCustomFormatToggle
    (updateConfig (handleCustomFormatToggle c true) (dateFormat_is text)) false
  = c.
Proof.
  intros Hmode Hc. specialize (Hc Hmode).
  destruct c; cbn in *; subst. repeat split.
Qed.

Lemma custom_format_round_trip_witness :
  useCustomFormat DEFAULT_CONFIG = false /\
  handleCustomFormatToggle
    (updateConfig (handleCustomFormatToggle DEFAULT_CONFIG true)
                  (dateFormat_is "DD.MM")) false
  = DEFAULT_CONFIG.
Proof.
  split; [reflexivity|].
  exact (proj2 (proj2 (custom_format_round_trip DEFAULT_CONFIG "DD.MM" eq_refl
                         DEFAULT_CONFIG_consistent))).
Defined.

(* ===================================================================== *)
(** * 13. The overlay preview                                             *)
(* ===================================================================== *)


(* ===================================================================== *)
(** * 14. The preference store                                            *)
(* ===================================================================== *)

Lemma list_to_map_is_Some (l : list (string * Json)) (k : string) :
  is_Some ((list_to_map l : gmap string Json) !! k) <-> k ∈ l.*1.
Proof.
  rewrite <- not_eq_None_Some, <- not_elem_of_list_to_map.
  split; [apply dec_stable | auto].
Qed.

Lemma configObject_dom (c : ImageConfig) :
  dom (configObject c) = dom (configObject DEFAULT_CONFIG).
Proof.
  apply set_eq. intros k. rewrite !elem_of_dom.
  unfold configObject. rewrite !list_to_map_is_Some. reflexivity.
Qed.

Lemma union_covering_l (m1 m2 : gmap string Json) :
  dom m2 ⊆ dom m1 -> m1 ∪ m2 = m1.
Proof.
  intros Hdom. apply map_eq. intros k. rewrite lookup_union.
  destruct (m1 !! k) as [v1|] eqn:H1; destruct (m2 !! k) as [v2|] eqn:H2;
    try reflexivity.
  exfalso.
  assert (Hin : k ∈ dom m1) by (apply Hdom, elem_of_dom; eauto).
  apply elem_of_dom in Hin. rewrite H1 in Hin. destruct Hin; discriminate.
Qed.

Lemma mergeWithDefaults_configObject (c : ImageConfig) :
  mergeWithDefaults (Some (JObject (configObject c))) = configObject c.
Proof.
  unfold mergeWithDefaults. cbn [spread].
  apply union_covering_l. rewrite (configObject_dom c). reflexivity.
Qed.

Lemma mergeWithDefaults_covers (config : option Json) (k : string) :
  is_Some (configObject DEFAULT_CONFIG !! k) ->
  is_Some (mergeWithDefaults config !! k).
Proof.
  intros [v Hv]. unfold mergeWithDefaults. rewrite lookup_union.
  destruct (spread config !! k); rewrite Hv; cbn; eauto.
Qed.

Lemma loadConfig_stored_object (JSON_parse : string -> Outcome Json)
    (storage : Storage) (text : string) (fields : gmap string Json) :
  accessRefused storage = false ->
  items storage !! STORAGE_KEY = Some text ->
  text <> "" ->
  JSON_parse text = Returns (JObject fields) ->
  loadConfig JSON_parse true storage = mergeWithDefaults (fields !! "config").
Proof.
  intros Hacc Hitem Hne Hparse.
  unfold loadConfig, getItem. cbn [negb]. rewrite Hacc, Hitem.
  destruct (String.eqb text "") eqn:E.
  - apply String.eqb_eq in E. contradiction.
  - rewrite Hparse. cbn [getNamed]. unfold migrateConfig. cbn [getNamed].
    destruct (differsFromVersion (fields !! "version")); reflexivity.
Qed.

(** X12: a saved configuration is the one loaded next.  When the
    storage can be used and the serializer's text for the stored form
    reads back, [loadConfig] after [saveConfig c] returns exactly [c]. *)
Theorem loadConfig_after_saveConfig
    (JSON_parse : string -> Outcome Json) (JSON_stringify : Json -> string)
    (c : ImageConfig) (storage : Storage) :
  usable_storage storage ->
  reads_back JSON_parse JSON_stringify (storedForm (configObject c)) ->
  loadConfig JSON_parse true
    (saveConfig JSON_stringify true (configObject c) storage)
  = configObject c.
Proof.
  intros [Hacc Hquota] [Hne Hback].
  unfold saveConfig, setItem. cbn [negb]. rewrite Hacc, Hquota. cbn [orb].
  rewrite (loadConfig_stored_object JSON_parse _
             (JSON_stringify (storedForm (configObject c)))
             (<["version" := JNumber CONFIG_VERSION]>
                (<["config" := JObject (configObject c)]> ∅))).
  - rewrite lookup_insert_ne by discriminate. rewrite lookup_insert_eq.
    apply mergeWithDefaults_configObject.
  - reflexivity.
  - cbn [items]. apply lookup_insert_eq.
  - exact Hne.
  - exact Hback.
Qed.

Lemma loadConfig_after_saveConfig_witness :
  loadConfig sample_parse true
    (saveConfig sample_stringify true (configObject large_font_config)
       empty_storage)
  = configObject large_font_config.
Proof.
  apply (loadConfig_after_saveConfig sample_parse sample_stringify
           large_font_config empty_storage).
  - split; reflexivity.
  - split; [discriminate | reflexivity].
Defined.

(** X13: whatever goes wrong, [loadConfig] answers with the defaults.
    Outside a browser, when storage access is refused, when nothing or
    the empty text is stored, when the text does not parse or parses to
    [null], the result is [DEFAULT_CONFIG]. *)
Theorem loadConfig_falls_back_to_defaults
    (JSON_parse : string -> Outcome Json) (inBrowser : bool)
    (storage : Storage) :
  inBrowser = false \/ accessRefused storage = true \/
  unusable_text JSON_parse (items storage !! STORAGE_KEY) ->
  loadConfig JSON_parse inBrowser storage = configObject DEFAULT_CONFIG.
Proof.
  intros H. unfold loadConfig, getItem.
  destruct inBrowser; cbn [negb]; [| reflexivity].
  destruct (accessRefused storage); [reflexivity |].
  destruct H as [H | [H | H]]; try discriminate.
  destruct (items storage !! STORAGE_KEY) as [text|]; [| reflexivity].
  destruct (String.eqb text "") eqn:E; [reflexivity |].
  destruct H as [H | [H | H]].
  - subst text. discriminate.
  - rewrite H. reflexivity.
  - rewrite H. reflexivity.
Qed.

Lemma loadConfig_falls_back_to_defaults_witness :
  loadConfig sample_parse true refused_storage = configObject DEFAULT_CONFIG.
Proof.
  apply (loadConfig_falls_back_to_defaults sample_parse true refused_storage).
  right. left. reflexivity.
Defined.

(** X14: stored values win field by field, unvalidated, and the stored
    version plays no part.  When the stored text parses to an object
    whose [config] is an object, each field of the result is the stored
    field if there is one (whatever its value) and the default
    otherwise. *)
Theorem loadConfig_merges_field_by_field
    (JSON_parse : string -> Outcome Json) (storage : Storage)
    (text : string) (fields config : gmap string Json) (k : string) :
  accessRefused storage = false ->
  items storage !! STORAGE_KEY = Some text ->
  text <> "" ->
  JSON_parse text = Returns (JObject fields) ->
  fields !! "config" = Some (JObject config) ->
  loadConfig JSON_parse true storage !! k =
    match config !! k with
    | Some value => Some value
    | None => configObject DEFAULT_CONFIG !! k
    end.
Proof.
  intros Hacc Hitem Hne Hparse Hconfig.
  rewrite (loadConfig_stored_object JSON_parse storage text fields)
    by assumption.
  rewrite Hconfig. unfold mergeWithDefaults. cbn [spread].
  rewrite lookup_union.
  destruct (config !! k); destruct (configObject DEFAULT_CONFIG !! k);
    reflexivity.
Qed.

Lemma loadConfig_merges_field_by_field_witness :
  loadConfig sample_parse true
    (mkStorage {[ STORAGE_KEY := "{stored}" ]} false false) !! "fontSize"
  = Some (JNumber 48).
Proof.
  apply (loadConfig_merges_field_by_field sample_parse
           (mkStorage {[ STORAGE_KEY := "{stored}" ]} false false)
           "{stored}"
           (<["version" := JNumber CONFIG_VERSION]>
              (<["config" := JObject (configObject large_font_config)]> ∅))
           (configObject large_font_config) "fontSize").
  - reflexivity.
  - apply lookup_singleton_eq.
  - discriminate.
  - reflexivity.
  - rewrite lookup_insert_ne by discriminate. apply lookup_insert_eq.
Defined.

(** X15: no field is ever missing from a loaded configuration.
    Whatever the storage holds and however it parses, every field of
    [DEFAULT_CONFIG] is a field of what [loadConfig] returns. *)
Theorem loadConfig_has_every_field
    (JSON_parse : string -> Outcome Json) (inBrowser : bool)
    (storage : Storage) (k : string) :
  is_Some (configObject DEFAULT_CONFIG !! k) ->
  is_Some (loadConfig JSON_parse inBrowser storage !! k).
Proof.
  intros Hk. unfold loadConfig.
  destruct (negb inBrowser); [exact Hk |].
  destruct (getItem STORAGE_KEY storage) as [[text|]|]; try exact Hk.
  destruct (String.eqb text ""); [exact Hk |].
  destruct (JSON_parse text) as [parsed|]; [| exact Hk].
  destruct (getNamed parsed "version") as [version|]; [| exact Hk].
  destruct (differsFromVersion version).
  - unfold migrateConfig.
    destruct (getNamed parsed "config"); [| exact Hk].
    apply mergeWithDefaults_covers, Hk.
  - destruct (getNamed parsed "config"); [| exact Hk].
    apply mergeWithDefaults_covers, Hk.
Qed.

Lemma loadConfig_has_every_field_witness :
  is_Some (loadConfig sample_parse true empty_storage !! "dateFormat").
Proof.
  apply (loadConfig_has_every_field sample_parse true empty_storage
           "dateFormat").
  eexists. reflexivity.
Defined.

Lemma debounce_burst (configs : list (gmap string Json))
    (final : gmap string Json) (saveTimeout : SaveTimeout) :
  fold_left (fun pending config => debouncedSaveConfig config pending)
            (configs ++ [final]) saveTimeout
  = Some final.
Proof.
  rewrite fold_left_app. reflexivity.
Qed.

(** X16: the store keeps to its own key, and clearing it brings the
    defaults back.  [saveConfig] and [clearConfig] leave every other
    item of the storage as it was, whether they succeed or not; after
    a [clearConfig] on storage that can be accessed, [loadConfig]
    returns [DEFAULT_CONFIG]. *)
Theorem store_keeps_to_its_key
    (JSON_parse : string -> Outcome Json) (JSON_stringify : Json -> string)
    (inBrowser : bool) (config : gmap string Json) (storage : Storage)
    (other : string) :
  other <> STORAGE_KEY ->
  items (saveConfig JSON_stringify inBrowser config storage) !! other
    = items storage !! other /\
  items (clearConfig inBrowser storage) !! other = items storage !! other /\
  (accessRefused storage = false ->
   loadConfig JSON_parse true (clearConfig true storage)
   = configObject DEFAULT_CONFIG).
Proof.
  intros Hother. repeat split.
  - unfold saveConfig, setItem.
    destruct (negb inBrowser); [reflexivity |].
    destruct (accessRefused storage || quotaExceeded storage);
      [reflexivity |].
    cbn [items]. apply lookup_insert_ne. congruence.
  - unfold clearConfig, removeItem.
    destruct (negb inBrowser); [reflexivity |].
    destruct (accessRefused storage); [reflexivity |].
    cbn [items]. apply lookup_delete_ne. congruence.
  - intros Hacc. unfold clearConfig, removeItem. cbn [negb]. rewrite Hacc.
    unfold loadConfig, getItem. cbn [negb accessRefused items].
    rewrite lookup_delete_eq. reflexivity.
Qed.

Lemma store_keeps_to_its_key_witness :
  items (saveConfig sample_stringify true (configObject DEFAULT_CONFIG)
           (mkStorage {[ "theme" := "dark" ]} false false)) !! "theme"
  = Some "dark".
Proof.
  refine (eq_trans
    (proj1 (store_keeps_to_its_key sample_parse sample_stringify true
              (configObject DEFAULT_CONFIG)
              (mkStorage {[ "theme" := "dark" ]} false false) "theme" _))
    _).
  - discriminate.
  - apply lookup_singleton_eq.
Defined.

(* ===================================================================== *)
(** * 15. The table of object URLs                                        *)
(* ===================================================================== *)

Lemma to_uint_nonnil (n : nat) : Nat.to_uint n <> Decimal.Nil.
Proof.
  rewrite <- (Unsigned.of_to n) at 1. rewrite Unsigned.to_of.
  apply unorm_nonnil.
Qed.

Lemma nat_toString_inj (n m : nat) : nat_toString n = nat_toString m -> n = m.
Proof.
  unfold nat_toString. intros H.
  assert (Hn := NilZero.usu (Nat.to_uint n) (to_uint_nonnil n)).
  assert (Hm := NilZero.usu (Nat.to_uint m) (to_uint_nonnil m)).
  rewrite H in Hn. rewrite Hn in Hm. injection Hm as Hm.
  now apply Unsigned.to_uint_inj.
Qed.

Lemma blob_inj (n m : nat) :
  "blob:" +:+ nat_toString n = "blob:" +:+ nat_toString m -> n = m.
Proof.
  rewrite !append_cons, !append_nil_l. intros H.
  injection H as H. now apply nat_toString_inj.
Qed.

Lemma minted_fresh (w : World) :
  urls_minted w ->
  objectUrls w !! ("blob:" +:+ nat_toString (urlCounter w)) = None.
Proof.
  intros Hm.
  destruct (objectUrls w !! ("blob:" +:+ nat_toString (urlCounter w)))
    as [x|] eqn:E; [| reflexivity].
  destruct (Hm _ (ex_intro _ x E)) as [k [Hk Heq]].
  apply blob_inj in Heq. lia.
Qed.

Lemma createObjectURL_minted (target : UrlTarget) (w : World) :
  urls_minted w -> urls_minted (snd (createObjectURL target w)).
Proof.
  intros Hm u Hu. cbn in *.
  apply lookup_insert_is_Some in Hu as [<- | [_ Hu]].
  - exists (urlCounter w). split; [lia | reflexivity].
  - destruct (Hm u Hu) as [k [Hk ->]]. exists k. split; [lia | reflexivity].
Qed.

Lemma createObjectURL_keeps (target : UrlTarget) (w : World) u x :
  urls_minted w ->
  objectUrls w !! u = Some x ->
  objectUrls (snd (createObjectURL target w)) !! u = Some x.
Proof.
  intros Hm Hu. cbn.
  rewrite lookup_insert_ne; [exact Hu |].
  intros <-. rewrite (minted_fresh w Hm) in Hu. discriminate.
Qed.

Lemma createObjectURL_sources (target : UrlTarget) (w : World) :
  urls_minted w ->
  sourceUrls (snd (createObjectURL target w))
  = if isSource target
    then <["blob:" +:+ nat_toString (urlCounter w) := target]> (sourceUrls w)
    else sourceUrls w.
Proof.
  intros Hm. unfold sourceUrls. cbn [createObjectURL snd objectUrls].
  destruct (isSource target) eqn:E.
  - apply map_filter_insert_True. exact E.
  - apply map_filter_insert_not'.
    + cbn. rewrite E. discriminate.
    + intros y Hy. rewrite (minted_fresh w Hm) in Hy. discriminate.
Qed.

Section UrlTableFacts.

Variable localTime : TimeValue -> JsDate.
Variable measureText : Font -> string -> Q.
Variable getContext : Image -> bool.
Variable encodes : Image -> bool.
Variable drawId : nat -> string.

Local Abbreviation processImage2 :=
  (processImage localTime measureText getContext encodes).
Local Abbreviation processLoop2 :=
  (processLoop localTime measureText getContext encodes).
Local Abbreviation worldAfter2 :=
  (worldAfter localTime measureText getContext encodes).
Local Abbreviation handleFiles2 :=
  (handleFiles localTime measureText getContext encodes drawId).
Local Abbreviation settle2 := (settle localTime measureText getContext encodes).
Local Abbreviation settleAll2 :=
  (settleAll localTime measureText getContext encodes).
Local Abbreviation stampText2 := (stampText localTime).
Local Abbreviation record_of_file2 :=
  (record_of_file localTime measureText getContext encodes).

(** One file through the pipeline, seen from the URL table. *)
Lemma processImage_table (file : File) (config : ImageConfig) (w : World) :
  urls_minted w ->
  let out := processImage2 file config w in
  urls_minted (snd out) /\
  clock (snd out) = clock w /\
  idCounter (snd out) = idCounter w /\
  (forall u x, objectUrls w !! u = Some x -> objectUrls (snd out) !! u = Some x) /\
  sourceUrls (snd out)
  = <["blob:" +:+ nat_toString (urlCounter w) := SourceFile (name file)]>
      (sourceUrls w) /\
  match fst out with
  | Returns result =>
      exists image,
        decoded file = Some image /\
        getContext image && encodes image = true /\
        result_timestamp result = stampText2 config file (clock w) /\
        result_usedFallback result
        = usedFallback (extractImageMetadata (exif file) (clock w)) /\
        objectUrls (snd out) !! url result
        = Some (EncodedCanvas
                  (drawOverlay measureText config image
                     (stampText2 config file (clock w))))
  | Throws =>
      match decoded file with
      | Some image => getContext image && encodes image = false
      | None => True
      end
  end.
Proof.
  intros Hm.
  pose proof (createObjectURL_minted (SourceFile (name file)) w Hm) as Hm1.
  pose proof (createObjectURL_sources (SourceFile (name file)) w Hm) as Hs1.
  pose proof (fun u x => createObjectURL_keeps (SourceFile (name file)) w u x Hm)
    as Hk1.
  cbn [isSource] in Hs1.
  unfold processImage.
  destruct (createObjectURL (SourceFile (name file)) w) as [u1 w1] eqn:E1.
  cbn [snd] in Hm1, Hs1, Hk1.
  assert (Hc1 : clock w1 = clock w /\ idCounter w1 = idCounter w).
  { unfold createObjectURL in E1. injection E1 as _ <-. split; reflexivity. }
  destruct Hc1 as [Hc1 Hi1].
  destruct (decoded file) as [image|];
    [| cbn; repeat split; auto].
  destruct (getContext image) eqn:Eg;
    [| cbn; repeat split; auto].
  destruct (encodes image) eqn:Ee;
    [| cbn; repeat split; auto].
  pose proof (createObjectURL_minted
                (EncodedCanvas (drawOverlay measureText config image
                   (formatDate
                      (localTime
                         match date (extractImageMetadata (exif file) (clock w)) with
                         | Some d => d
                         | None => clock w
                         end) (dateFormat config)))) w1 Hm1) as Hm2.
  pose proof (createObjectURL_sources
                (EncodedCanvas (drawOverlay measureText config image
                   (formatDate
                      (localTime
                         match date (extractImageMetadata (exif file) (clock w)) with
                         | Some d => d
                         | None => clock w
                         end) (dateFormat config)))) w1 Hm1) as Hs2.
  pose proof (fun u x => createObjectURL_keeps
                (EncodedCanvas (drawOverlay measureText config image
                   (formatDate
                      (localTime
                         match date (extractImageMetadata (exif file) (clock w)) with
                         | Some d => d
                         | None => clock w
                         end) (dateFormat config)))) w1 u x Hm1) as Hk2.
  cbn [isSource] in Hs2.
  destruct (createObjectURL (EncodedCanvas _) w1) as [u2 w2] eqn:E2.
  cbn [snd fst] in *.
  assert (Hc2 : clock w2 = clock w1 /\ idCounter w2 = idCounter w1 /\
                objectUrls w2 !! u2
                = Some (EncodedCanvas (drawOverlay measureText config image
                   (formatDate
                      (localTime
                         match date (extractImageMetadata (exif file) (clock w)) with
                         | Some d => d
                         | None => clock w
                         end) (dateFormat config))))).
  { unfold createObjectURL in E2. injection E2 as <- <-.
    repeat split. cbn. apply lookup_insert_eq. }
  destruct Hc2 as [Hc2 [Hi2 Hu2]].
  repeat split.
  - exact Hm2.
  - congruence.
  - congruence.
  - intros u x Hu. apply Hk2, Hk1, Hu.
  - rewrite Hs2. exact Hs1.
  - exists image. rewrite Eg, Ee. repeat split; auto.
Qed.

Lemma sourceUrls_fresh (w : World) :
  urls_minted w ->
  sourceUrls w !! ("blob:" +:+ nat_toString (urlCounter w)) = None.
Proof.
  intros Hm.
  destruct (sourceUrls w !! ("blob:" +:+ nat_toString (urlCounter w)))
    as [x|] eqn:E; [| reflexivity].
  apply map_lookup_filter_Some in E as [E _].
  rewrite (minted_fresh w Hm) in E. discriminate.
Qed.

Lemma worldAfter_table (config : ImageConfig)
    (work : list (File * ProcessedImage)) (w : World) :
  urls_minted w ->
  urls_minted (worldAfter2 config work w) /\
  clock (worldAfter2 config work w) = clock w /\
  (forall u x, objectUrls w !! u = Some x ->
               objectUrls (worldAfter2 config work w) !! u = Some x) /\
  size (sourceUrls (worldAfter2 config work w))
  = size (sourceUrls w) + length work.
Proof.
  revert w; induction work as [|[file p] rest IH]; intros w Hm; cbn [worldAfter].
  - repeat split; auto; cbn; lia.
  - destruct (processImage_table file config w Hm)
      as [Hm1 [Hc1 [_ [Hk1 [Hs1 _]]]]].
    destruct (IH _ Hm1) as [Hm2 [Hc2 [Hk2 Hs2]]].
    repeat split.
    + exact Hm2.
    + congruence.
    + intros u x Hu. apply Hk2, Hk1, Hu.
    + rewrite Hs2, Hs1.
      rewrite map_size_insert_None by (apply sourceUrls_fresh, Hm).
      cbn [length]. lia.
Qed.

Lemma processLoop_world (config : ImageConfig)
    (work : list (File * ProcessedImage)) (st : AppState) :
  world (processLoop2 config work st) = worldAfter2 config work (world st).
Proof.
  revert st; induction work as [|[file p] rest IH]; intros st;
    cbn [processLoop worldAfter]; [reflexivity|].
  destruct (processImage2 file config (world st)) as [outcome w1] eqn:E.
  rewrite IH. destruct outcome; reflexivity.
Qed.

Lemma record_kept_mono (w w' : World) (img : ProcessedImage) :
  (forall u x, objectUrls w !! u = Some x -> objectUrls w' !! u = Some x) ->
  record_kept measureText w img -> record_kept measureText w' img.
Proof.
  intros Hk [Hl | [config [image Hr]]]; [left; exact Hl | right].
  exists config, image. apply Hk, Hr.
Qed.

Lemma markError_kept (w : World) i (img : ProcessedImage) :
  record_kept measureText w img -> record_kept measureText w (markError i img).
Proof.
  unfold markError. destruct (String.eqb (id img) i); [| auto].
  intros [[Hu Hs] | Hr]; [left | right].
  - cbn. split; [exact Hu | discriminate].
  - exact Hr.
Qed.

Lemma processLoop_kept (config : ImageConfig)
    (work : list (File * ProcessedImage)) (st : AppState) :
  outputs_kept measureText st ->
  outputs_kept measureText (processLoop2 config work st).
Proof.
  revert st; induction work as [|[file p] rest IH]; intros st [Hm Hrec];
    cbn [processLoop]; [split; assumption |].
  pose proof (processImage_table file config (world st) Hm) as Ht.
  destruct (processImage2 file config (world st)) as [outcome w1] eqn:E.
  cbn [fst snd] in Ht.
  destruct Ht as [Hm1 [_ [_ [Hk1 [_ Hout]]]]].
  apply IH. destruct outcome as [result|]; (split; [exact Hm1 |]);
    cbn [images setImages setWorld world].
  - apply Forall_map. eapply Forall_impl; [exact Hrec |].
    intros img Himg. cbn beta. unfold markDone.
    destruct (String.eqb (id img) (id p)).
    + right. destruct Hout as [image [_ [_ [Hts [_ Hurl]]]]].
      exists config, image. cbn [processedUrl timestamp].
      rewrite Hts. exact Hurl.
    + eapply record_kept_mono; eauto.
  - apply Forall_map. eapply Forall_impl; [exact Hrec |].
    intros img Himg. cbn beta. apply markError_kept.
    eapply record_kept_mono; eauto.
Qed.

Lemma newRecords_kept (w : World) validFiles n :
  Forall (record_kept measureText w) (newRecords drawId validFiles n).
Proof.
  revert n; induction validFiles as [|f l IH]; intros n; cbn; constructor.
  - left. cbn. split; [reflexivity | discriminate].
  - apply IH.
Qed.

Lemma submit_kept (files : list File) (st : AppState) :
  outputs_kept measureText st ->
  outputs_kept measureText (snd (submit drawId files st)).
Proof.
  intros [Hm Hrec]. unfold submit. cbn. split.
  - exact Hm.
  - apply Forall_app. split.
    + eapply Forall_impl; [exact Hrec |].
      intros img. apply record_kept_mono. auto.
    + apply newRecords_kept.
Qed.

Lemma handleFiles_kept (files : list File) (config : ImageConfig)
    (st : AppState) :
  outputs_kept measureText st ->
  outputs_kept measureText (handleFiles2 files config st).
Proof.
  intros Hk. unfold handleFiles.
  destruct (validFilesOf files) as [|f l] eqn:Ev; [exact Hk |].
  pose proof (submit_kept files st Hk) as Hs.
  destruct (submit drawId files st) as [work st1]. cbn [snd] in Hs.
  pose proof (processLoop_kept config work st1 Hs) as [Hm Hrec].
  split; assumption.
Qed.

Lemma revoke_fold_minted (l : list ProcessedImage) (w : World) :
  urls_minted w ->
  urls_minted
    (fold_left
       (fun w img =>
          if negb (String.eqb (processedUrl img) "")
          then revokeObjectURL (processedUrl img) w else w)
       l w).
Proof.
  revert w; induction l as [|img l IH]; intros w Hm; cbn [fold_left];
    [exact Hm |].
  apply IH. destruct (negb (String.eqb (processedUrl img) "")); [| exact Hm].
  intros u [x Hu]. cbn in Hu. apply lookup_delete_Some in Hu as [_ Hu].
  apply Hm. eauto.
Qed.

Lemma handleClearAll_kept (st : AppState) :
  outputs_kept measureText st -> outputs_kept measureText (handleClearAll st).
Proof.
  intros [Hm _]. split.
  - cbn. apply revoke_fold_minted, Hm.
  - cbn. constructor.
Qed.

Lemma kept_not_source (w : World) (img : ProcessedImage) :
  urls_minted w -> record_kept measureText w img ->
  forall x, objectUrls w !! processedUrl img = Some x -> isSource x = false.
Proof.
  intros Hm [[Hu _] | [config [image Hr]]] x Hx.
  - rewrite Hu in Hx. destruct (Hm "" (ex_intro _ x Hx)) as [k [_ Hk]].
    rewrite append_cons in Hk. discriminate.
  - rewrite Hr in Hx. injection Hx as <-. reflexivity.
Qed.

Lemma revoke_fold_sources (l : list ProcessedImage) (w : World) :
  Forall (fun img => forall x, objectUrls w !! processedUrl img = Some x ->
                               isSource x = false) l ->
  sourceUrls
    (fold_left
       (fun w img =>
          if negb (String.eqb (processedUrl img) "")
          then revokeObjectURL (processedUrl img) w else w)
       l w)
  = sourceUrls w.
Proof.
  revert w; induction l as [|img l IH]; intros w Hl; cbn [fold_left];
    [reflexivity |].
  apply Forall_cons in Hl as [Himg Hl].
  destruct (negb (String.eqb (processedUrl img) "")); [| apply IH, Hl].
  rewrite IH.
  - unfold sourceUrls. cbn [revokeObjectURL objectUrls].
    apply map_filter_delete_not. intros y Hy. cbn.
    rewrite (Himg y Hy). discriminate.
  - eapply Forall_impl; [exact Hl |].
    intros img' H' x Hx. cbn in Hx.
    apply lookup_delete_Some in Hx as [_ Hx]. apply H', Hx.
Qed.

Lemma handleDownloadAll_kept (st : AppState) :
  outputs_kept measureText st ->
  outputs_kept measureText
    (setWorld (snd (handleDownloadAll (images st) (world st))) st) /\
  fst (handleDownloadAll (images st) (world st)) <> Throws.
Proof.
  intros [Hm Hrec].
  assert (Hlive : Forall (fun image =>
                    is_Some (objectUrls (world st) !! processedUrl image))
                    (doneImagesOf (images st))).
  { apply Forall_forall. intros img Hin.
    apply list_elem_of_In, List.filter_In in Hin as [Hin Hdone].
    apply list_elem_of_In in Hin.
    rewrite Forall_forall in Hrec.
    destruct (Hrec img Hin) as [[_ Hs] | [config [image Hr]]].
    - unfold isDone in Hdone. destruct (status img); congruence.
    - rewrite Hr. eauto. }
  unfold handleDownloadAll.
  destruct (doneImagesOf (images st)) as [|a [|b l]] eqn:Ed.
  - split; [split; assumption | discriminate].
  - split; [split; assumption | discriminate].
  - destruct (zipEntries_returns (a :: b :: l) (world st) ∅ Hlive) as [zip Hz].
    rewrite Hz. cbn [fst snd]. split; [| discriminate].
    split; cbn [world setWorld images].
    + intros u Hu. destruct (Hm u Hu) as [k [Hk ->]].
      exists k. cbn. split; [lia | reflexivity].
    + eapply Forall_impl; [exact Hrec |].
      intros img. apply record_kept_mono. auto.
Qed.

(** X17: outputs stay served.  The state in which every live URL was
    minted by [createObjectURL] and every record either has no output
    and is not done or has a live output URL serving a canvas stamped
    with the record's own timestamp is kept by [handleFiles], by
    [handleClearAll] and by [handleDownloadAll]; in such a state every
    done record's output is served and [handleDownloadAll] does not
    fail. *)
Theorem outputs_kept_by_handlers
    (files : list File) (config : ImageConfig) (st : AppState) :
  outputs_kept measureText st ->
  outputs_kept measureText (handleFiles2 files config st) /\
  outputs_kept measureText (handleClearAll st) /\
  outputs_kept measureText
    (setWorld (snd (handleDownloadAll (images st) (world st))) st) /\
  fst (handleDownloadAll (images st) (world st)) <> Throws /\
  (forall img, img ∈ images (handleFiles2 files config st) ->
     status img = done ->
     serves_stamp measureText (world (handleFiles2 files config st)) img).
Proof.
  intros Hk.
  pose proof (handleFiles_kept files config st Hk) as Hf.
  destruct (handleDownloadAll_kept st Hk) as [Hd Hn].
  repeat split; try (apply Hf || apply Hd || apply handleClearAll_kept);
    try assumption.
  intros img Hin Hdone. destruct Hf as [_ Hrec].
  rewrite Forall_forall in Hrec.
  destruct (Hrec img Hin) as [[_ Hs] | Hr]; [contradiction | exact Hr].
Qed.

(** X18: source URLs are never released.  In a kept state, a batch
    leaves one more live URL of a submitted file for each of its image
    files, and [handleClearAll] revokes none of them. *)
Theorem source_urls_outlive_clear
    (files : list File) (config : ImageConfig) (st : AppState) :
  outputs_kept measureText st ->
  size (sourceUrls (world (handleFiles2 files config st)))
  = size (sourceUrls (world st)) + length (validFilesOf files) /\
  sourceUrls (world (handleClearAll st)) = sourceUrls (world st).
Proof.
  intros [Hm Hrec]. split.
  - unfold handleFiles.
    destruct (validFilesOf files) as [|f l] eqn:Ev; [cbn; lia |].
    unfold submit. rewrite Ev. cbn [world setIsProcessing].
    rewrite processLoop_world. cbn [world setImages setWorld setIsProcessing].
    match goal with
    | |- context [worldAfter2 config ?work ?w] =>
        destruct (worldAfter_table config work w Hm) as [_ [_ [_ Hs]]];
        rewrite Hs;
        rewrite <- (length_map fst work)
    end.
    rewrite (proj1 (zip_newRecords drawId (f :: l) _)). reflexivity.
  - cbn [handleClearAll revokeOutputs world setWorld setImages setLightboxOpen].
    apply revoke_fold_sources.
    eapply Forall_impl; [exact Hrec |].
    intros img Himg. apply kept_not_source; assumption.
Qed.

Lemma zip_newRecords_lookup validFiles n i f :
  validFiles !! i = Some f ->
  zip validFiles (newRecords drawId validFiles n) !! i
  = Some (f, mkProcessed (drawId (n + i)) (name f) "" "" false processing).
Proof.
  revert n i; induction validFiles as [|g l IH]; intros n i Hi;
    [discriminate |].
  destruct i as [|i].
  - cbn in Hi. injection Hi as ->. rewrite Nat.add_0_r. reflexivity.
  - replace (n + S i) with (S n + i) by lia. exact (IH (S n) i Hi).
Qed.

Lemma settleAll_records (config : ImageConfig)
    (work : list (File * ProcessedImage)) (w : World) i f p :
  urls_minted w ->
  work !! i = Some (f, p) ->
  originalName p = name f -> processedUrl p = "" -> timestamp p = "" ->
  exists r,
    settleAll2 config work w !! i = Some r /\ id r = id p /\
    record_of_file2 config (clock w) (worldAfter2 config work w) f r.
Proof.
  revert w i; induction work as [|[g q] rest IH]; intros w i Hm Hi Hn Hu Ht;
    [discriminate |].
  pose proof (processImage_table g config w Hm) as Htab.
  cbn [settleAll worldAfter]. unfold settle.
  destruct (processImage2 g config w) as [outcome w1] eqn:E.
  cbn [fst snd] in Htab.
  destruct Htab as [Hm1 [Hc1 [_ [Hk1 [_ Hout]]]]].
  destruct i as [|i].
  - cbn in Hi. injection Hi as -> ->.
    destruct (worldAfter_table config rest w1 Hm1) as [_ [_ [Hk2 _]]].
    destruct outcome as [result|].
    + destruct Hout as [image [Hdec [Hok [Hts [Hfb Hurl]]]]].
      eexists. split; [reflexivity |].
      unfold markDone. rewrite String.eqb_refl. cbn [id]. split; [reflexivity |].
      unfold record_of_file. cbn [originalName status timestamp usedFallback_
                                   processedUrl].
      split; [exact Hn |]. rewrite Hdec, Hok.
      repeat split; auto.
    + eexists. split; [reflexivity |].
      unfold markError. rewrite String.eqb_refl. cbn [id]. split; [reflexivity |].
      unfold record_of_file. cbn [originalName status timestamp usedFallback_
                                   processedUrl].
      split; [exact Hn |].
      destruct (decoded f) as [image|]; [rewrite Hout |]; repeat split; auto.
  - cbn in Hi.
    destruct (IH w1 i Hm1 Hi Hn Hu Ht) as [r [Hr [Hid Hrec]]].
    exists r. rewrite <- Hc1.
    split; [exact Hr | split; [exact Hid | exact Hrec]].
Qed.


End UrlTableFacts.

Lemma empty_app_kept : outputs_kept measure_ten_per_char empty_app.
Proof.
  split.
  - intros u [x Hu]. cbn in Hu. rewrite lookup_empty in Hu. discriminate.
  - constructor.
Qed.

(** After the sample batch every output is served, and "download all"
    goes through. *)
Lemma outputs_kept_by_handlers_witness :
  outputs_kept measure_ten_per_char empty_app /\
  outputs_kept measure_ten_per_char
    (handleFiles sample_localTime measure_ten_per_char sample_getContext
                 sample_encodes sample_drawId
                 sample_batch DEFAULT_CONFIG empty_app).
Proof.
  split; [exact empty_app_kept |].
  exact (proj1 (outputs_kept_by_handlers
                  sample_localTime measure_ten_per_char sample_getContext
                  sample_encodes sample_drawId
                  sample_batch DEFAULT_CONFIG empty_app empty_app_kept)).
Defined.

(** The sample batch of five image files leaves five source URLs. *)
Lemma source_urls_outlive_clear_witness :
  outputs_kept measure_ten_per_char empty_app /\
  size (sourceUrls
          (world (handleFiles sample_localTime measure_ten_per_char
                              sample_getContext sample_encodes sample_drawId
                              sample_batch DEFAULT_CONFIG empty_app)))
  = 5.
Proof.
  split; [exact empty_app_kept |].
  exact (proj1 (source_urls_outlive_clear
                  sample_localTime measure_ten_per_char sample_getContext
                  sample_encodes sample_drawId
                  sample_batch DEFAULT_CONFIG empty_app empty_app_kept)).
Defined.


(* ===================================================================== *)
(** * 16. Formats of numeric tokens and plain text                        *)
(* ===================================================================== *)

Lemma replace_skips_chars (c : ascii) (tok' val pre s : string) :
  avoids c pre = true ->
  replace (String c tok') val (pre +:+ s)
  = pre +:+ replace (String c tok') val s.
Proof.
  induction pre as [|a pre IH]; intros Hpre.
  - reflexivity.
  - change (negb (Ascii.eqb c a) && avoids c pre = true) in Hpre.
    apply andb_prop in Hpre as [Ha Hpre].
    rewrite append_cons. cbn [replace strip_prefix].
    destruct (Ascii.eqb c a); [discriminate Ha |].
    now rewrite (IH Hpre).
Qed.

Lemma replace_avoids (c : ascii) (tok' val s : string) :
  avoids c s = true -> replace (String c tok') val s = s.
Proof.
  induction s as [|a s IH]; intros Hs.
  - reflexivity.
  - change (negb (Ascii.eqb c a) && avoids c s = true) in Hs.
    apply andb_prop in Hs as [Ha Hs].
    cbn [replace strip_prefix].
    destruct (Ascii.eqb c a); [discriminate Ha |].
    now rewrite (IH Hs).
Qed.

Lemma replace_at_head (pat val s : string) :
  replace pat val (pat +:+ s) = val +:+ s.
Proof.
  assert (H : strip_prefix pat (pat +:+ s) = Some s)
    by now apply strip_prefix_Some.
  destruct (pat +:+ s); cbn [replace]; now rewrite H.
Qed.

Lemma literal_avoids (c : ascii) (lit : string) :
  token_letter c = true -> literal_text lit = true -> avoids c lit = true.
Proof.
  intros Hc. induction lit as [|a lit IH]; intros Hlit; [reflexivity |].
  change (negb (token_letter a) && literal_text lit = true) in Hlit.
  apply andb_prop in Hlit as [Ha Hlit].
  change (negb (Ascii.eqb c a) && avoids c lit = true).
  rewrite (IH Hlit), andb_true_r.
  destruct (Ascii.eqb_spec c a) as [-> |]; [| reflexivity].
  rewrite Hc in Ha. discriminate Ha.
Qed.

Lemma avoids_app (c : ascii) (a b : string) :
  avoids c (a +:+ b) = avoids c a && avoids c b.
Proof.
  induction a as [|x a IH]; [reflexivity |].
  rewrite append_cons. cbn [avoids]. rewrite IH. now rewrite andb_assoc.
Qed.

Lemma literal_app (a b : string) :
  literal_text (a +:+ b) = literal_text a && literal_text b.
Proof.
  induction a as [|x a IH]; [reflexivity |].
  rewrite append_cons. cbn [literal_text]. rewrite IH. now rewrite andb_assoc.
Qed.

(** The values of the numeric tokens are digits, with a sign in front
    of a negative year: no token letter. *)
Lemma literal_digits (u : Decimal.uint) :
  literal_text (NilEmpty.string_of_uint u) = true.
Proof. induction u; cbn [NilEmpty.string_of_uint]; auto. Qed.

Lemma literal_uint (u : Decimal.uint) :
  literal_text (NilZero.string_of_uint u) = true.
Proof.
  destruct u; try reflexivity; unfold NilZero.string_of_uint;
    apply literal_digits.
Qed.

Lemma literal_nat_toString (n : nat) : literal_text (nat_toString n) = true.
Proof. apply literal_uint. Qed.

Lemma literal_Z_toString (z : Z) : literal_text (Z_toString z) = true.
Proof.
  unfold Z_toString, NilZero.string_of_int.
  destruct (Z.to_int z) as [u | u]; [apply literal_uint |].
  change (negb (token_letter "-") && literal_text (NilZero.string_of_uint u)
          = true).
  now rewrite literal_uint.
Qed.

Lemma literal_fill_chars (n : nat) (fill cur : string) :
  literal_text fill = true -> literal_text cur = true ->
  literal_text (fill_chars n fill cur) = true.
Proof.
  intros Hfill. revert cur; induction n as [|n IH]; intros cur Hcur;
    [reflexivity |].
  cbn [fill_chars]. destruct cur as [|c cur].
  - destruct fill as [|c fill]; [reflexivity |].
    change (negb (token_letter c) && literal_text fill = true) in Hfill.
    apply andb_prop in Hfill as [Hc Hrest].
    change (negb (token_letter c)
            && literal_text (fill_chars n (String c fill) fill) = true).
    rewrite Hc. cbn [andb]. apply IH. exact Hrest.
  - change (negb (token_letter c) && literal_text cur = true) in Hcur.
    apply andb_prop in Hcur as [Hc Hrest].
    change (negb (token_letter c) && literal_text (fill_chars n fill cur) = true).
    rewrite Hc. cbn [andb]. apply IH. exact Hrest.
Qed.

Lemma literal_pad (n : nat) : literal_text (pad n) = true.
Proof.
  unfold pad, padStart. rewrite literal_app, literal_nat_toString.
  rewrite literal_fill_chars by reflexivity. reflexivity.
Qed.

Lemma literal_token_value (d : JsDate) (t : Token) :
  t <> tA -> literal_text (token_value d t) = true.
Proof.
  destruct t; intros Ht; try contradiction; cbn [token_value];
    auto using literal_pad, literal_Z_toString.
Qed.

Lemma Token_eqb_eq (a b : Token) : Token_eqb a b = true <-> a = b.
Proof. destruct a, b; cbn; split; congruence. Qed.

(** One step of [formatDate] on a format in pieces: the first piece
    that is the step's token is swapped for the value. *)
Lemma replace_token (t : Token) (v : string) (ps : list Piece) :
  simple_format ps = true ->
  replace (token_text t) v (flat ps) = flat (subst_piece t v ps).
Proof.
  induction ps as [|[text | t'] rest IH]; intros Hs.
  - destruct t; reflexivity.
  - cbn [simple_format] in Hs. apply andb_prop in Hs as [Hlit Hs].
    cbn [flat subst_piece]. rewrite <- (IH Hs).
    destruct t; apply replace_skips_chars, literal_avoids;
      (reflexivity || exact Hlit).
  - cbn [simple_format] in Hs. apply andb_prop in Hs as [_ Hs].
    cbn [flat subst_piece].
    destruct (Token_eqb t t') eqn:E.
    + apply Token_eqb_eq in E as <-. cbn [flat]. apply replace_at_head.
    + cbn [flat]. rewrite <- (IH Hs).
      destruct t, t'; try discriminate E;
        apply replace_skips_chars; reflexivity.
Qed.

Lemma has_token_subst (t t' : Token) (v : string) (ps : list Piece) :
  has_token t ps = false -> has_token t (subst_piece t' v ps) = false.
Proof.
  induction ps as [|[text | u] rest IH]; intros H; cbn [subst_piece has_token] in *.
  - reflexivity.
  - auto.
  - apply orb_false_elim in H as [Hu Hrest].
    destruct (Token_eqb t' u); cbn [has_token].
    + exact Hrest.
    + rewrite Hu. cbn [orb]. auto.
Qed.

Lemma simple_subst (t : Token) (v : string) (ps : list Piece) :
  literal_text v = true -> simple_format ps = true ->
  simple_format (subst_piece t v ps) = true.
Proof.
  intros Hv. induction ps as [|[text | u] rest IH]; intros Hs;
    cbn [subst_piece simple_format] in *.
  - reflexivity.
  - apply andb_prop in Hs as [Hlit Hs]. rewrite Hlit. cbn [andb]. auto.
  - apply andb_prop in Hs as [Hu Hs].
    destruct (Token_eqb t u); cbn [simple_format].
    + rewrite Hv. exact Hs.
    + rewrite has_token_subst by (now destruct (has_token u rest)).
      cbn [negb andb]. auto.
Qed.

Lemma subst_absent_token (t : Token) (v : string) (ps : list Piece) :
  has_token t ps = false -> subst_piece t v ps = ps.
Proof.
  induction ps as [|[text | u] rest IH]; intros H; cbn [subst_piece has_token] in *.
  - reflexivity.
  - now rewrite IH.
  - apply orb_false_elim in H as [Hu Hrest]. rewrite Hu. now rewrite IH.
Qed.

(** Without the token [MM] no piece holds the letter M. *)
Lemma flat_avoids_M (ps : list Piece) :
  simple_format ps = true -> has_token tMM ps = false ->
  avoids "M" (flat ps) = true.
Proof.
  induction ps as [|[text | u] rest IH]; intros Hs Hm;
    cbn [simple_format has_token flat] in *.
  - reflexivity.
  - apply andb_prop in Hs as [Hlit Hs].
    rewrite avoids_app, (literal_avoids "M" text eq_refl Hlit). cbn [andb]. auto.
  - apply andb_prop in Hs as [_ Hs]. apply orb_false_elim in Hm as [Hu Hm].
    rewrite avoids_app, (IH Hs Hm), andb_true_r.
    destruct u; try discriminate Hu; reflexivity.
Qed.

(** The [MMMM] and [MMM] steps find nothing in such a format: its only
    run of the letter M is the token [MM]. *)
Lemma replace_month_name_absent (tail val : string) (ps : list Piece) :
  tail = "" \/ tail = "M" ->
  simple_format ps = true ->
  replace (String "M" (String "M" (String "M" tail))) val (flat ps) = flat ps.
Proof.
  intros Htail. induction ps as [|[text | u] rest IH]; intros Hs.
  - reflexivity.
  - cbn [simple_format] in Hs. apply andb_prop in Hs as [Hlit Hs].
    cbn [flat]. rewrite replace_skips_chars
      by (apply literal_avoids; [reflexivity | exact Hlit]).
    now rewrite (IH Hs).
  - cbn [simple_format] in Hs. apply andb_prop in Hs as [Hu Hs].
    cbn [flat].
    destruct (Token_eqb u tMM) eqn:E.
    + apply Token_eqb_eq in E. subst u.
      assert (Hm : avoids "M" (flat rest) = true).
      { apply flat_avoids_M; [exact Hs |].
        now destruct (has_token tMM rest). }
      cbn [token_text]. rewrite !append_cons, append_nil_l.
      destruct (flat rest) as [|c r] eqn:Er.
      * destruct Htail as [-> | ->]; reflexivity.
      * change (negb (Ascii.eqb "M" c) && avoids "M" r = true) in Hm.
        apply andb_prop in Hm as [Hc Hr].
        cbn [replace strip_prefix]. cbn [Ascii.eqb Bool.eqb].
        destruct (Ascii.eqb "M" c) eqn:Ec; [discriminate Hc |].
        cbn [Ascii.eqb Bool.eqb] in Ec |- *.
        rewrite ?Ec.
        rewrite (replace_avoids "M" _ val r Hr).
        destruct Htail as [-> | ->]; reflexivity.
    + rewrite replace_skips_chars by (destruct u; try discriminate E; reflexivity).
      now rewrite (IH Hs).
Qed.

Lemma flat_substitute_all (d : JsDate) (ps : list Piece) :
  simple_format ps = true -> flat (substitute_all d ps) = render d ps.
Proof.
  induction ps as [|[text | t] rest IH]; intros Hs.
  - reflexivity.
  - cbn [simple_format] in Hs. apply andb_prop in Hs as [_ Hs].
    unfold substitute_all. cbv zeta. cbn [subst_piece flat render].
    f_equal. exact (IH Hs).
  - cbn [simple_format] in Hs. apply andb_prop in Hs as [Hno Hs].
    assert (Hno' : has_token t rest = false) by now destruct (has_token t rest).
    cbn [render]. rewrite <- (IH Hs).
    unfold substitute_all. cbv zeta.
    destruct t; cbn [subst_piece Token_eqb flat]; f_equal;
      match goal with
      | H : has_token ?t rest = false |- _ =>
          rewrite (subst_absent_token t)
            by (repeat apply has_token_subst; exact H)
      end;
      reflexivity.
Qed.

Lemma formatDate_pieces (d : JsDate) (ps : list Piece) :
  simple_format ps = true -> formatDate d (flat ps) = render d ps.
Proof.
  intros Hs. rewrite <- (flat_substitute_all d ps Hs).
  unfold formatDate, substitute_all. cbv zeta.
  rewrite (replace_token tYYYY _ ps Hs).
  assert (H1 : simple_format (subst_piece tYYYY (token_value d tYYYY) ps) = true)
    by (apply simple_subst; [apply literal_token_value; discriminate | exact Hs]).
  rewrite (replace_month_name_absent "M" _ _ (or_intror eq_refl) H1).
  rewrite (replace_month_name_absent "" _ _ (or_introl eq_refl) H1).
  rewrite (replace_token tMM _ _ H1).
  assert (H2 := simple_subst tMM (token_value d tMM) _
                  (literal_token_value d tMM ltac:(discriminate)) H1).
  rewrite (replace_token tDD _ _ H2).
  assert (H3 := simple_subst tDD (token_value d tDD) _
                  (literal_token_value d tDD ltac:(discriminate)) H2).
  rewrite (replace_token tHH _ _ H3).
  assert (H4 := simple_subst tHH (token_value d tHH) _
                  (literal_token_value d tHH ltac:(discriminate)) H3).
  rewrite (replace_token thh _ _ H4).
  assert (H5 := simple_subst thh (token_value d thh) _
                  (literal_token_value d thh ltac:(discriminate)) H4).
  rewrite (replace_token tmm _ _ H5).
  assert (H6 := simple_subst tmm (token_value d tmm) _
                  (literal_token_value d tmm ltac:(discriminate)) H5).
  rewrite (replace_token tss _ _ H6).
  assert (H7 := simple_subst tss (token_value d tss) _
                  (literal_token_value d tss ltac:(discriminate)) H6).
  rewrite (replace_token tA _ _ H7).
  reflexivity.
Qed.

(** X20: a format of plain text and numeric tokens prints as intended.
    When no token stands twice in the format and the text between the
    tokens holds none of the letters Y, M, D, H, h, m, s and A,
    [formatDate] prints, for every timestamp, the format with each of
    the tokens YYYY, MM, DD, HH, hh, mm, ss and A swapped for its value
    and the text in between kept. *)
Theorem formatDate_simple_format (d : JsDate) (ps : list Piece) :
  simple_format ps = true -> formatDate d (flat ps) = render d ps.
Proof. exact (formatDate_pieces d ps). Qed.

Lemma formatDate_simple_format_witness :
  formatDate (mkDate 2024 2 5 9 7 3) "hh:mm:ss A" = "09:07:03 AM".
Proof.
  exact (formatDate_simple_format (mkDate 2024 2 5 9 7 3) pieces_12h_seconds
           eq_refl).
Defined.

(** X21: the presets without a month name print as intended at every
    timestamp.  Each date preset other than the two with a month name,
    joined by [combineFormats] with any time preset, is a format that
    [formatDate] prints with every token swapped for its value. *)
Theorem numeric_presets_print (d : JsDate) (dp tp : FormatPreset) :
  In dp DATE_FORMAT_PRESETS -> In tp TIME_FORMAT_PRESETS ->
  value dp <> "DD MMM YYYY" -> value dp <> "MMMM DD, YYYY" ->
  exists date_pieces time_pieces,
    flat date_pieces = value dp /\ flat time_pieces = value tp /\
    simple_format (joined date_pieces time_pieces) = true /\
    formatDate d (combineFormats (value dp) (value tp))
    = render d (joined date_pieces time_pieces).
Proof.
  intros Hd Ht Hshort Hlong.
  cbn [In DATE_FORMAT_PRESETS] in Hd. cbn [In TIME_FORMAT_PRESETS] in Ht.
  assert (Hpd : exists pd, In (value dp, pd) numeric_date_presets).
  { destruct Hd as [<- | [<- | [<- | [<- | [<- | [<- | []]]]]]];
      cbn [value] in *; try congruence;
      eexists; cbn; eauto 6. }
  assert (Hpt : exists pt, In (value tp, pt) time_presets).
  { destruct Ht as [<- | [<- | [<- | [<- | [<- | []]]]]];
      cbn [value]; eexists; cbn; eauto 7. }
  destruct Hpd as [pd Hpd]. destruct Hpt as [pt Hpt].
  exists pd, pt.
  cbn [In numeric_date_presets] in Hpd. cbn [In time_presets] in Hpt.
  destruct Hpd as [[= <- <-] | [[= <- <-] | [[= <- <-] | [[= <- <-] | []]]]];
    destruct Hpt as [[= <- <-] | [[= <- <-] | [[= <- <-] | [[= <- <-]
                    | [[= <- <-] | []]]]]];
    (split; [reflexivity |]); (split; [reflexivity |]);
    (split; [reflexivity |]);
    match goal with
    | |- formatDate d _ = render d ?ps =>
        exact (formatDate_pieces d ps eq_refl)
    end.
Qed.

Lemma numeric_presets_print_witness :
  exists date_pieces time_pieces,
    flat date_pieces = "DD.MM.YYYY" /\ flat time_pieces = "hh:mm A" /\
    simple_format (joined date_pieces time_pieces) = true /\
    formatDate (mkDate 2026 0 18 14 30 45)
      (combineFormats "DD.MM.YYYY" "hh:mm A")
    = render (mkDate 2026 0 18 14 30 45) (joined date_pieces time_pieces).
Proof.
  apply (numeric_presets_print (mkDate 2026 0 18 14 30 45)
           (mkPreset "DD.MM.YYYY" "Dotted (18.01.2026)" "18.01.2026")
           (mkPreset "hh:mm A" "12h (02:30 PM)" "02:30 PM")).
  - cbn. tauto.
  - cbn. tauto.
  - discriminate.
  - discriminate.
Defined.

(** ** The presets with a month name *)

Lemma time_tail_render (d : JsDate) (ps : list Piece) :
  simple_format ps = true ->
  has_token tYYYY ps = false -> has_token tMM ps = false ->
  has_token tDD ps = false ->
  flat (subst_piece tA (token_value d tA)
         (subst_piece tss (token_value d tss)
           (subst_piece tmm (token_value d tmm)
             (subst_piece thh (token_value d thh)
               (subst_piece tHH (token_value d tHH) ps)))))
  = render d ps.
Proof.
  intros Hs HY HM HD. rewrite <- (flat_substitute_all d ps Hs).
  unfold substitute_all. cbv zeta.
  rewrite (subst_absent_token tYYYY _ ps HY).
  rewrite (subst_absent_token tMM _ ps HM).
  rewrite (subst_absent_token tDD _ ps HD).
  reflexivity.
Qed.

Lemma append_empty_r (s : string) : s +:+ "" = s.
Proof.
  induction s as [|c s IH]; [reflexivity |].
  rewrite append_cons. now rewrite IH.
Qed.

(** The steps of [formatDate] on a format whose head is known and whose
    tail is in pieces: scan the known text, step over a printed number,
    and substitute in the pieces. *)
Ltac scan :=
  cbn [replace strip_prefix Ascii.eqb Bool.eqb array_get nth
       MONTH_NAMES MONTH_SHORT getFullYear getMonth getDate getHours
       getMinutes getSeconds].

Ltac literal_value :=
  first [apply literal_pad | apply literal_Z_toString].

Ltac simple_pieces Hs :=
  repeat (apply simple_subst; [literal_value |]); exact Hs.

Ltac format_step Hs HM :=
  first
    [ rewrite (replace_month_name_absent "M" _ _ (or_intror eq_refl) Hs)
    | rewrite (replace_month_name_absent "" _ _ (or_introl eq_refl) Hs)
    | rewrite (replace_token tMM _ _ Hs), (subst_absent_token tMM _ _ HM)
    | rewrite (replace_token tHH) by simple_pieces Hs
    | rewrite (replace_token thh) by simple_pieces Hs
    | rewrite (replace_token tmm) by simple_pieces Hs
    | rewrite (replace_token tss) by simple_pieces Hs
    | rewrite (replace_token tA) by simple_pieces Hs
    | rewrite replace_skips_chars
        by (apply literal_avoids; [reflexivity | literal_value])
    | progress (rewrite ?append_cons, ?append_nil_l)
    | progress scan ].

Lemma short_preset_tail (d : JsDate) (ps : list Piece) :
  getMonth d < 12 -> getMonth d <> 3 -> getMonth d <> 7 ->
  simple_format ps = true ->
  has_token tYYYY ps = false -> has_token tMM ps = false ->
  has_token tDD ps = false ->
  formatDate d ("DD MMM YYYY" +:+ flat ps)
  = pad (getDate d) +:+ " " +:+ array_get MONTH_SHORT (getMonth d) +:+ " "
    +:+ Z_toString (getFullYear d) +:+ render d ps.
Proof.
  intros Hlt H3 H7 Hs HY HM HD.
  rewrite <- (time_tail_render d ps Hs HY HM HD).
  destruct d as [Y m D H mi s]. cbn [getMonth] in Hlt, H3, H7.
  unfold formatDate. cbv zeta.
  do 12 (destruct m as [|m];
         [try lia; repeat format_step Hs HM; reflexivity |]).
  lia.
Qed.

Lemma long_preset_tail (d : JsDate) (ps : list Piece) :
  getMonth d < 12 -> getMonth d <> 3 -> getMonth d <> 7 ->
  simple_format ps = true ->
  has_token tYYYY ps = false -> has_token tMM ps = false ->
  has_token tDD ps = false ->
  formatDate d ("MMMM DD, YYYY" +:+ flat ps)
  = array_get MONTH_NAMES (getMonth d) +:+ " " +:+ pad (getDate d) +:+ ", "
    +:+ Z_toString (getFullYear d) +:+ render d ps.
Proof.
  intros Hlt H3 H7 Hs HY HM HD.
  rewrite <- (time_tail_render d ps Hs HY HM HD).
  destruct d as [Y m D H mi s]. cbn [getMonth] in Hlt, H3, H7.
  unfold formatDate. cbv zeta.
  do 12 (destruct m as [|m];
         [try lia; repeat format_step Hs HM; reflexivity |]).
  lia.
Qed.

(** X22: the two presets with a month name print as intended in every
    month but April and August.  For a timestamp of any other month,
    the short preset joined with any time preset prints day, short
    month name and year, the long preset prints month name, day and
    year, each followed by the time part with its tokens swapped for
    their values. *)
Theorem month_name_presets_print (d : JsDate) (tp : FormatPreset) :
  getMonth d < 12 -> getMonth d <> 3 -> getMonth d <> 7 ->
  In tp TIME_FORMAT_PRESETS ->
  exists time_pieces,
    flat time_pieces = value tp /\
    formatDate d (combineFormats "DD MMM YYYY" (value tp))
    = pad (getDate d) +:+ " " +:+ array_get MONTH_SHORT (getMonth d) +:+ " "
      +:+ Z_toString (getFullYear d) +:+ render d (joined [] time_pieces) /\
    formatDate d (combineFormats "MMMM DD, YYYY" (value tp))
    = array_get MONTH_NAMES (getMonth d) +:+ " " +:+ pad (getDate d) +:+ ", "
      +:+ Z_toString (getFullYear d) +:+ render d (joined [] time_pieces).
Proof.
  intros Hlt H3 H7 Ht.
  cbn [In TIME_FORMAT_PRESETS] in Ht.
  destruct Ht as [<- | [<- | [<- | [<- | [<- | []]]]]]; cbn [value].
  - exists pieces_24h_seconds. split; [reflexivity |]. split.
    + exact (short_preset_tail d (joined [] pieces_24h_seconds)
               Hlt H3 H7 eq_refl eq_refl eq_refl eq_refl).
    + exact (long_preset_tail d (joined [] pieces_24h_seconds)
               Hlt H3 H7 eq_refl eq_refl eq_refl eq_refl).
  - exists pieces_24h. split; [reflexivity |]. split.
    + exact (short_preset_tail d (joined [] pieces_24h)
               Hlt H3 H7 eq_refl eq_refl eq_refl eq_refl).
    + exact (long_preset_tail d (joined [] pieces_24h)
               Hlt H3 H7 eq_refl eq_refl eq_refl eq_refl).
  - exists pieces_12h_seconds. split; [reflexivity |]. split.
    + exact (short_preset_tail d (joined [] pieces_12h_seconds)
               Hlt H3 H7 eq_refl eq_refl eq_refl eq_refl).
    + exact (long_preset_tail d (joined [] pieces_12h_seconds)
               Hlt H3 H7 eq_refl eq_refl eq_refl eq_refl).
  - exists pieces_12h. split; [reflexivity |]. split.
    + exact (short_preset_tail d (joined [] pieces_12h)
               Hlt H3 H7 eq_refl eq_refl eq_refl eq_refl).
    + exact (long_preset_tail d (joined [] pieces_12h)
               Hlt H3 H7 eq_refl eq_refl eq_refl eq_refl).
  - exists []. split; [reflexivity |]. split.
    + exact (short_preset_tail d [] Hlt H3 H7 eq_refl eq_refl eq_refl eq_refl).
    + exact (long_preset_tail d [] Hlt H3 H7 eq_refl eq_refl eq_refl eq_refl).
Qed.

Lemma month_name_presets_print_witness :
  exists time_pieces,
    flat time_pieces = "hh:mm A" /\
    formatDate (mkDate 2026 0 18 14 30 45)
      (combineFormats "DD MMM YYYY" "hh:mm A")
    = "18 Jan 2026" +:+ render (mkDate 2026 0 18 14 30 45)
                          (joined [] time_pieces) /\
    formatDate (mkDate 2026 0 18 14 30 45)
      (combineFormats "MMMM DD, YYYY" "hh:mm A")
    = "January 18, 2026" +:+ render (mkDate 2026 0 18 14 30 45)
                               (joined [] time_pieces).
Proof.
  apply (month_name_presets_print (mkDate 2026 0 18 14 30 45)
           (mkPreset "hh:mm A" "12h (02:30 PM)" "02:30 PM")).
  - cbn. lia.
  - discriminate.
  - discriminate.
  - cbn. tauto.
Defined.

(** X23: in April and August the two presets with a month name print
    the AM/PM marker in place of the first letter of the month name.
    The [A] step, run last, finds its first "A" in "Apr", "Aug",
    "April" or "August", whatever the day, the year and the time. *)
Theorem month_name_presets_april_august (d : JsDate) :
  getMonth d = 3 \/ getMonth d = 7 ->
  formatDate d "DD MMM YYYY"
  = pad (getDate d) +:+ " " +:+ ampm d
    +:+ drop_first (array_get MONTH_SHORT (getMonth d)) +:+ " "
    +:+ Z_toString (getFullYear d) /\
  formatDate d "MMMM DD, YYYY"
  = ampm d +:+ drop_first (array_get MONTH_NAMES (getMonth d)) +:+ " "
    +:+ pad (getDate d) +:+ ", " +:+ Z_toString (getFullYear d).
Proof.
  intros Hm. destruct d as [Y m D H mi s]. cbn [getMonth] in Hm.
  assert (Hs : simple_format [] = true) by reflexivity.
  assert (HM : has_token tMM [] = false) by reflexivity.
  unfold formatDate. cbv zeta.
  destruct Hm as [-> | ->]; split;
    repeat format_step Hs HM;
    cbn [drop_first]; rewrite ?append_cons, ?append_nil_l, ?append_empty_r.
  all: reflexivity.
Qed.

Lemma month_name_presets_april_august_witness :
  formatDate (mkDate 2024 7 5 15 7 3) "DD MMM YYYY" = "05 PMug 2024" /\
  formatDate (mkDate 2024 7 5 15 7 3) "MMMM DD, YYYY" = "PMugust 05, 2024".
Proof.
  apply (month_name_presets_april_august (mkDate 2024 7 5 15 7 3)).
  right. reflexivity.
Defined.

(** ** Files that are not images *)

Lemma validFilesOf_idempotent (files : list File) :
  validFilesOf (validFilesOf files) = validFilesOf files.
Proof.
  unfold validFilesOf. induction files as [|f files IH]; [reflexivity |].
  rewrite filter_cons. case_decide as Hf.
  - rewrite filter_cons. rewrite decide_True by exact Hf. now rewrite IH.
  - exact IH.
Qed.

(** X24: files that are not images are ignored.  [handleFiles] does to
    the state what it does when handed the image files alone, in their
    order; handed no image file at all it leaves the state as it is,
    the processing flag included. *)
Theorem handleFiles_ignores_other_files
    (localTime : TimeValue -> JsDate) (measureText : Font -> string -> Q)
    (getContext encodes : Image -> bool) (drawId : nat -> string)
    (files : list File) (config : ImageConfig) (st : AppState) :
  handleFiles localTime measureText getContext encodes drawId files config st
  = handleFiles localTime measureText getContext encodes drawId
      (validFilesOf files) config st /\
  (Forall (fun file => startsWith (type file) "image/" = false) files ->
   handleFiles localTime measureText getContext encodes drawId files config st
   = st).
Proof.
  split.
  - unfold handleFiles, submit. rewrite validFilesOf_idempotent. reflexivity.
  - intros Hnone. unfold handleFiles.
    assert (Hv : validFilesOf files = []).
    { unfold validFilesOf. induction Hnone as [|f files Hf _ IH]; [reflexivity |].
      rewrite filter_cons. rewrite decide_False by congruence. exact IH. }
    now rewrite Hv.
Qed.
